(** * City registry service (index.js): a shallow embedding and its properties

    The service keeps two module-level variables, the array [cities] and the
    counter [nextId], and five route handlers that read or mutate them.  Each
    handler is embedded as a function from the store to a response and a new
    store; JavaScript objects are finite maps from property names to values.

    Numbers.  JavaScript numbers are IEEE doubles.  A Number is modelled by
    the rational it denotes, or an infinity, or NaN.  [parseInt] rounds the
    integer it reads to the nearest double (ties to even) as the builtin
    does, so a numeral beyond 2^53 addresses the id it rounds to.  The
    counter is kept as an integer and incremented exactly, which is what the
    code does while the counter is below 2^53. *)

From stdpp Require Import gmap strings list fin_maps pretty.
From Stdlib Require Import ZArith QArith Lia Sorted.

Local Open Scope Z_scope.
#[local] Set Warnings "-register-all".

(** ** Values *)

(** A Number: a finite value, given by the rational it denotes (zero stands
    for both zeros, which [===] does not tell apart), an infinity with its
    sign, or [NaN]. *)
Inductive number :=
  | Fin (q : Q)
  | Inf (negative : bool)
  | NaN.

(** [x === y] on Numbers: equal values; [NaN] equals nothing, itself
    included. *)
Definition number_eqb (x y : number) : bool :=
  match x, y with
  | Fin p, Fin q => Qeq_bool p q
  | Inf a, Inf b => Bool.eqb a b
  | _, _ => false
  end.

(** [a / 2^e] rounded to the nearest integer, a tie going to the even one. *)
Definition round_ties_even (a e : Z) : Z :=
  let m := a / 2 ^ e in
  let r := a mod 2 ^ e in
  let half := 2 ^ (e - 1) in
  if r <? half then m
  else if half <? r then m + 1
  else if Z.even m then m else m + 1.

(** The Number of an integer: the integer itself when its magnitude is below
    2^53, otherwise the nearest double (53 significant bits, ties to even),
    and an infinity when that reaches 2^1024. *)
Definition of_Z (n : Z) : number :=
  let a := Z.abs n in
  if a <? 2 ^ 53 then Fin (inject_Z n)
  else
    let e := Z.log2 a - 52 in
    let v := round_ties_even a e * 2 ^ e in
    if 2 ^ 1024 <=? v then Inf (n <? 0)
    else Fin (inject_Z (Z.sgn n * v)).

(** JavaScript values as they occur in this program: what [JSON.parse]
    produces for a request body (its Numbers are doubles, [NaN] is not among
    them), plus [undefined] (the result of reading a property that an object
    does not have). *)
Inductive value :=
  | VUndefined
  | VNull
  | VBool (b : bool)
  | VNum (x : number)
  | VStr (s : string)
  | VArr (l : list value)
  | VObj (o : gmap string value).

(** The number value of an integer of the counter or of a small literal. *)
Definition num (n : Z) : value := VNum (Fin (inject_Z n)).

(** What [JSON.parse] makes of an integer literal of a request body. *)
Definition json_integer (n : Z) : value := VNum (of_Z n).

(** [o.k] on an own property; a missing property reads as [undefined]. *)
Definition prop (o : gmap string value) (k : string) : value :=
  default VUndefined (o !! k).

(** [req.body] after [express.json()]: in its default strict mode the parser
    accepts an object or an array at top level; a request without a JSON body
    leaves the empty object. *)
Inductive reqbody :=
  | BObj (o : gmap string value)
  | BArr (l : list value).

(** The own enumerable properties copied by [...req.body]: the entries of an
    object, and for an array its elements under their decimal indices. *)
Definition own_properties (b : reqbody) : gmap string value :=
  match b with
  | BObj o => o
  | BArr l => list_to_map (imap (fun i v => (pretty i, v)) l)
  end.

(** [{ ...target, ...src }]: properties of [src] are written over those of
    [target]. *)
Definition spread (target src : gmap string value) : gmap string value :=
  src ∪ target.

(** ** parseInt *)

(** A string is a sequence of UTF-16 code units. *)
Definition code_unit := N.

Definition units (s : string) : list code_unit :=
  map Ascii.N_of_ascii (String.list_ascii_of_string s).

(** White space and line terminators skipped by [parseInt]. *)
Definition is_white_space (c : code_unit) : bool :=
  ((9 <=? c) && (c <=? 13) || (c =? 32) || (c =? 160) || (c =? 5760)
   || (8192 <=? c) && (c <=? 8202) || (c =? 8232) || (c =? 8233)
   || (c =? 8239) || (c =? 8287) || (c =? 12288) || (c =? 65279))%N.

Fixpoint trim_start (s : list code_unit) : list code_unit :=
  match s with
  | c :: s' => if is_white_space c then trim_start s' else s
  | [] => []
  end.

(** The value of a code unit as a digit: 0-9, then a-z and A-Z for 10-35. *)
Definition digit_value (c : code_unit) : option Z :=
  if ((48 <=? c) && (c <=? 57))%N then Some (Z.of_N c - 48)
  else if ((97 <=? c) && (c <=? 122))%N then Some (Z.of_N c - 97 + 10)
  else if ((65 <=? c) && (c <=? 90))%N then Some (Z.of_N c - 65 + 10)
  else None.

Definition radix_digit (R : Z) (c : code_unit) : option Z :=
  match digit_value c with
  | Some d => if d <? R then Some d else None
  | None => None
  end.

(** The digits of the longest prefix made of radix-[R] digits. *)
Fixpoint take_digits (R : Z) (s : list code_unit) : list Z :=
  match s with
  | c :: s' =>
      match radix_digit R c with
      | Some d => d :: take_digits R s'
      | None => []
      end
  | [] => []
  end.

Definition math_int (R : Z) (ds : list Z) : Z :=
  fold_left (fun acc d => acc * R + d) ds 0.

(** The integer that [parseInt(s)], called without a radix, reads from [s]
    before it is turned into a Number; [None] when there is none.
    Steps: strip leading white space, read a sign ([-] is 45, [+] is 43),
    strip a [0x]/[0X] prefix (48 then 120 or 88; it selects radix 16,
    otherwise the radix is 10), read the longest prefix of digits, and fail
    when it is empty. *)
Definition parse_integer (s : list code_unit) : option Z :=
  let s1 := trim_start s in
  let sign := match s1 with
              | c :: _ => if (c =? 45)%N then -1 else 1
              | [] => 1
              end in
  let s2 := match s1 with
            | c :: s' => if ((c =? 43) || (c =? 45))%N then s' else s1
            | [] => s1
            end in
  let '(R, s3) := match s2 with
                  | c1 :: c2 :: s' =>
                      if ((c1 =? 48) && ((c2 =? 120) || (c2 =? 88)))%N
                      then (16, s') else (10, s2)
                  | _ => (10, s2)
                  end in
  match take_digits R s3 with
  | [] => None
  | ds => Some (sign * math_int R ds)
  end.

(** [parseInt(s)]: [NaN] when no digit is read, otherwise the Number of the
    integer read. *)
Definition parseInt (s : list code_unit) : number :=
  match parse_integer s with
  | None => NaN
  | Some n => of_Z n
  end.

(** [v === r] where [r] is a Number: true only for a Number of the same
    value. *)
Definition strict_equals (v : value) (r : number) : bool :=
  match v with
  | VNum x => number_eqb x r
  | _ => false
  end.

(** ** The store and the responses *)

(** [let cities = []; let nextId = 3;] *)
Record store := Store {
  cities : list (gmap string value);
  nextId : Z
}.

Definition initial : store := Store [] 3.

Record response := Response {
  status : Z;
  body : option value
}.

(** [res.status(404).json({ message: 'City not found' })] *)
Definition not_found : response :=
  Response 404 (Some (VObj {[ "message" := VStr "City not found" ]})).

(** The callback [c => c.id === parseInt(req.params.id)]. *)
Definition has_id (seg : list code_unit) (c : gmap string value) : bool :=
  strict_equals (prop c "id") (parseInt seg).

(** [Array.prototype.findIndex]; [None] stands for [-1]. *)
Fixpoint findIndex {A} (p : A -> bool) (l : list A) : option nat :=
  match l with
  | [] => None
  | x :: l' => if p x then Some O else S <$> findIndex p l'
  end.

(** ** Route handlers *)

(** [app.get('/cities')] *)
Definition get_cities (s : store) : response * store :=
  (Response 200 (Some (VArr (map VObj (cities s)))), s).

(** [app.get('/cities/:id')] *)
Definition get_city (seg : list code_unit) (s : store) : response * store :=
  match List.find (has_id seg) (cities s) with
  | Some city => (Response 200 (Some (VObj city)), s)
  | None => (not_found, s)
  end.

(** [{ id: nextId++, ...req.body }] *)
Definition new_city (id : Z) (b : reqbody) : gmap string value :=
  spread {[ "id" := num id ]} (own_properties b).

(** [app.post('/cities')] *)
Definition post_city (b : reqbody) (s : store) : response * store :=
  let newCity := new_city (nextId s) b in
  (Response 201 (Some (VObj newCity)),
   Store (cities s ++ [newCity]) (nextId s + 1)).

(** [{ id: cities[index].id, ...req.body }] *)
Definition updated_city (old : gmap string value) (b : reqbody)
  : gmap string value :=
  spread {[ "id" := prop old "id" ]} (own_properties b).

(** [app.put('/cities/:id')].  Reading [cities[index].id] at an index outside
    the array would throw, which Express answers with status 500; the index
    returned by [findIndex] is always inside (lemma [findIndex_lookup]). *)
Definition put_city (seg : list code_unit) (b : reqbody) (s : store)
  : response * store :=
  match findIndex (has_id seg) (cities s) with
  | Some index =>
      match cities s !! index with
      | Some old =>
          let c := updated_city old b in
          (Response 200 (Some (VObj c)),
           Store (<[index := c]> (cities s)) (nextId s))
      | None => (Response 500 None, s)
      end
  | None => (not_found, s)
  end.

(** [app.delete('/cities/:id')] *)
Definition delete_city (seg : list code_unit) (s : store) : response * store :=
  match findIndex (has_id seg) (cities s) with
  | Some index =>
      (Response 204 None, Store (delete index (cities s)) (nextId s))
  | None => (not_found, s)
  end.

(** ** Requests and runs *)

Inductive request :=
  | ListCities
  | GetCity (seg : list code_unit)
  | CreateCity (b : reqbody)
  | UpdateCity (seg : list code_unit) (b : reqbody)
  | DeleteCity (seg : list code_unit).

Definition handle (r : request) (s : store) : response * store :=
  match r with
  | ListCities => get_cities s
  | GetCity seg => get_city seg s
  | CreateCity b => post_city b s
  | UpdateCity seg b => put_city seg b s
  | DeleteCity seg => delete_city seg s
  end.

(** The store after serving the requests in order (handlers run one at a
    time on the event loop). *)
Definition run (rs : list request) (s : store) : store :=
  fold_left (fun s r => snd (handle r s)) rs s.

(** The values [nextId++] hands out while the requests are served. *)
Fixpoint assigned_ids (rs : list request) (s : store) : list Z :=
  match rs with
  | [] => []
  | r :: rs' =>
      let s' := snd (handle r s) in
      match r with
      | CreateCity _ => nextId s :: assigned_ids rs' s'
      | _ => assigned_ids rs' s'
      end
  end.

(** The decimal numeral of a non-negative integer, as a client writes a
    returned id into a request path. *)
Fixpoint decimal_go (fuel : nat) (n : Z) (acc : list code_unit)
  : list code_unit :=
  match fuel with
  | O => acc
  | S fuel' =>
      let acc' := Z.to_N (48 + n mod 10) :: acc in
      if n <? 10 then acc' else decimal_go fuel' (n / 10) acc'
  end.

Definition decimal (n : Z) : list code_unit :=
  decimal_go (S (Z.to_nat (Z.log2 n))) n [].

(** ** Vocabulary of the properties *)

(** The record's [id] property is the Number of the integer [n]. *)
Definition id_is (n : Z) (c : gmap string value) : Prop :=
  exists x, c !! "id" = Some (VNum x) /\ number_eqb x (of_Z n) = true.

(** The path segment addresses the record: the record's [id] is a Number
    and equals the Number read from the segment. *)
Definition matches (seg : list code_unit) (c : gmap string value) : Prop :=
  exists x, c !! "id" = Some (VNum x) /\ number_eqb x (parseInt seg) = true.

Definition is_decimal_digit (c : code_unit) : bool :=
  ((48 <=? c) && (c <=? 57))%N.

(** The integer written by a sequence of decimal digits. *)
Definition decimal_value (ds : list code_unit) : Z :=
  math_int 10 (map (fun c => Z.of_N c - 48) ds).

(** The records made by creating the bodies in order, starting at id [n]. *)
Fixpoint created (n : Z) (bs : list reqbody) : list (gmap string value) :=
  match bs with
  | [] => []
  | b :: bs' => new_city n b :: created (n + 1) bs'
  end.

(** The invariant of the data model: every stored record has an [id] that is
    neither [null] nor missing, and no two stored records have the same. *)
Definition ids_unique_non_null (s : store) : Prop :=
  Forall (fun c => prop c "id" <> VNull /\ prop c "id" <> VUndefined)
         (cities s) /\
  NoDup (map (fun c => prop c "id") (cities s)).

(** The request body has no [id] property. *)
Definition id_free (r : request) : Prop :=
  match r with
  | CreateCity b | UpdateCity _ b => own_properties b !! "id" = None
  | _ => True
  end.

(** The ids of the records are integers that increase strictly along the
    array and lie between [lo] (included) and [hi] (excluded). *)
Fixpoint ids_increasing (lo : Z) (cs : list (gmap string value)) (hi : Z)
  : Prop :=
  match cs with
  | [] => lo <= hi
  | c :: cs' =>
      exists i, c !! "id" = Some (num i) /\ lo <= i /\ ids_increasing (i + 1) cs' hi
  end.

Definition server_ids (s : store) : Prop :=
  ids_increasing 3 (cities s) (nextId s).

(** An integer numeral may begin with a sign: nothing, [+] or [-]. *)
Inductive sign := NoSign | PlusSign | MinusSign.

Definition sign_units (sg : sign) : list code_unit :=
  match sg with
  | NoSign => []
  | PlusSign => [43%N]
  | MinusSign => [45%N]
  end.

(** The integer written by a sign and a sequence of decimal digits. *)
Definition signed_value (sg : sign) (ds : list code_unit) : Z :=
  match sg with
  | MinusSign => - decimal_value ds
  | _ => decimal_value ds
  end.

(** The request is a creation. *)
Definition is_create (r : request) : bool :=
  match r with
  | CreateCity _ => true
  | _ => false
  end.

(** The number of creations among the requests. *)
Definition creations (rs : list request) : nat :=
  length (List.filter is_create rs).

(** The path segment addresses at most one position of the array. *)
Definition addressed_once (seg : list code_unit) (s : store) : Prop :=
  forall i j c c',
    cities s !! i = Some c -> cities s !! j = Some c' ->
    matches seg c -> matches seg c' -> i = j.

(** No stored record has the integer [n] as its id, and the counter is
    already past [n]. *)
Definition retired (n : Z) (s : store) : Prop :=
  n < nextId s /\ forall c, c ∈ cities s -> ~ id_is n c.

Definition is_hex_digit (c : code_unit) : bool :=
  match digit_value c with
  | Some d => d <? 16
  | None => false
  end.

(** The integer written by a sequence of hexadecimal digits. *)
Definition hex_value (hs : list code_unit) : Z :=
  math_int 16 (map (fun c => default 0 (digit_value c)) hs).

(** The integer is one a Number holds exactly, as every id is (all integers
    of magnitude up to 2^53 and the doubles beyond). *)
Definition exact (n : Z) : Prop := of_Z n = Fin (inject_Z n).



(** ** Sample evaluations *)

Example parse_integer_0xyz : parse_integer (units "0xyz") = None.
Proof. reflexivity. Qed.
Example parse_integer_plus : parse_integer (units "+7") = Some 7.
Proof. reflexivity. Qed.
Example parse_integer_5abc : parse_integer (units "5abc") = Some 5.
Proof. reflexivity. Qed.
Example parse_integer_abc : parse_integer (units "abc") = None.
Proof. reflexivity. Qed.
Example parse_integer_hex : parse_integer (units "0x1f") = Some 31.
Proof. reflexivity. Qed.
Example parse_integer_neg : parse_integer (units "  -42px") = Some (-42).
Proof. reflexivity. Qed.
Example parseInt_5abc : parseInt (units "5abc") = Fin 5.
Proof. reflexivity. Qed.
Example parseInt_abc : parseInt (units "abc") = NaN.
Proof. reflexivity. Qed.

(** Beyond 2^53 the nearest double is read, a tie going to the even one. *)
Example parseInt_rounds :
  parseInt (units "9007199254740993") = Fin 9007199254740992 /\
  parseInt (units "9007199254740995") = Fin 9007199254740996 /\
  parseInt (units "0x20000000000001") = Fin 9007199254740992 /\
  parseInt (units "-9007199254740993") = Fin (-9007199254740992).
Proof. repeat split; vm_compute; reflexivity. Qed.

(** The largest double, and the first integer that is read as [Infinity]. *)
Example of_Z_overflow :
  of_Z (2 ^ 1024 - 2 ^ 970 - 1) = Fin (inject_Z (2 ^ 1024 - 2 ^ 971)) /\
  of_Z (2 ^ 1024 - 2 ^ 970) = Inf false /\
  of_Z (- 10 ^ 400) = Inf true.
Proof. repeat split; vm_compute; reflexivity. Qed.

(** A record whose id is 2^53 is found under the numeral 9007199254740993,
    and one whose id is [Infinity] (a body with [1e999]) under an overlong
    numeral. *)
Example get_city_rounded_numeral :
  let big := {[ "id" := num 9007199254740992 ]} in
  let inf := {[ "id" := VNum (Inf false) ]} in
  let s := Store [big; inf] 3 in
  fst (get_city (units "9007199254740993") s) = Response 200 (Some (VObj big)) /\
  fst (get_city (repeat 57%N 400) s) = Response 200 (Some (VObj inf)).
Proof. repeat split; vm_compute; reflexivity. Qed.

Example decimal_120 : decimal 120 = units "120".
Proof. reflexivity. Qed.
Example decimal_0 : decimal 0 = units "0".
Proof. reflexivity. Qed.

(** A body with [id: 9007199254740993] is stored with id 2^53 and read back
    under either numeral. *)
Example post_city_rounded_literal :
  let b := BObj {[ "id" := json_integer 9007199254740993 ]} in
  let s := snd (post_city b initial) in
  cities s = [ {[ "id" := num 9007199254740992 ]} ] /\
  status (fst (get_city (units "9007199254740993") s)) = 200 /\
  status (fst (get_city (units "9007199254740992") s)) = 200 /\
  status (fst (get_city (units "9007199254740994") s)) = 404.
Proof. repeat split; vm_compute; reflexivity. Qed.

(** An array body contributes its elements under their indices. *)
Example new_city_array_body :
  new_city 3 (BArr [VStr "a"; VNull]) =
  {[ "id" := num 3; "0" := VStr "a"; "1" := VNull ]}.
Proof. vm_compute. reflexivity. Qed.

(** The first record gets id 3; after its deletion the id is unknown. *)
Example create_read_delete :
  let addis := BObj {[ "name" := VStr "Addis Ababa";
                       "population" := num 5000000;
                       "country" := VStr "Ethiopia" ]} in
  let stored := <["id" := num 3]> (own_properties addis) in
  let s1 := snd (post_city addis initial) in
  let s2 := snd (delete_city (units "3") s1) in
  fst (get_cities initial) = Response 200 (Some (VArr [])) /\
  fst (post_city addis initial) = Response 201 (Some (VObj stored)) /\
  fst (get_city (units "3") s1) = Response 200 (Some (VObj stored)) /\
  fst (delete_city (units "3") s1) = Response 204 None /\
  fst (get_city (units "3") s2) = not_found /\
  fst (delete_city (units "3") s2) = not_found.
Proof. repeat split; vm_compute; reflexivity. Qed.

(** ** Reading ids *)

Lemma number_eqb_NaN_r (x : number) : number_eqb x NaN = false.
Proof. by destruct x. Qed.

Lemma number_eqb_refl (x : number) : x <> NaN -> number_eqb x x = true.
Proof.
  destruct x as [q|b|]; simpl; intros H; [|by destruct b|done].
  apply Qeq_bool_iff. reflexivity.
Qed.

Lemma number_eqb_sym (x y : number) : number_eqb x y = number_eqb y x.
Proof.
  destruct x as [p|a|], y as [q|b|]; simpl; try done.
  - destruct (Qeq_bool p q) eqn:E1, (Qeq_bool q p) eqn:E2; try done.
    + apply Qeq_bool_iff in E1. apply Qeq_bool_neq in E2. by destruct E2.
    + apply Qeq_bool_iff in E2. apply Qeq_bool_neq in E1. by destruct E1.
  - by destruct a, b.
Qed.

(** Equal Numbers compare alike with any third one. *)
Lemma number_eqb_trans (x y z : number) :
  number_eqb x y = true -> number_eqb x z = number_eqb y z.
Proof.
  destruct x as [p|a|], y as [q|b|]; simpl; try done.
  - intros Hpq%Qeq_bool_iff. destruct z as [r|c|]; simpl; try done.
    destruct (Qeq_bool p r) eqn:E1, (Qeq_bool q r) eqn:E2; try done.
    + apply Qeq_bool_iff in E1. apply Qeq_bool_neq in E2.
      destruct E2. by rewrite <- Hpq.
    + apply Qeq_bool_iff in E2. apply Qeq_bool_neq in E1.
      destruct E1. by rewrite Hpq.
  - intros Hab. destruct a, b; try done.
Qed.

Lemma number_eqb_Z (i j : Z) :
  number_eqb (Fin (inject_Z i)) (Fin (inject_Z j)) = true <-> i = j.
Proof. simpl. rewrite Qeq_bool_iff. apply inject_Z_injective. Qed.

(** Integers of magnitude below 2^53 are Numbers as they are. *)
Lemma of_Z_safe (n : Z) : Z.abs n < 2 ^ 53 -> of_Z n = Fin (inject_Z n).
Proof. intros H. unfold of_Z. by destruct (Z.ltb_spec (Z.abs n) (2 ^ 53)); [|lia]. Qed.

Lemma of_Z_not_NaN (n : Z) : of_Z n <> NaN.
Proof.
  unfold of_Z. destruct (Z.abs n <? 2 ^ 53); [done|].
  by destruct (2 ^ 1024 <=? _).
Qed.

Lemma parseInt_integer s n : parse_integer s = Some n -> parseInt s = of_Z n.
Proof. unfold parseInt. by intros ->. Qed.

Lemma parseInt_NaN s : parse_integer s = None <-> parseInt s = NaN.
Proof.
  unfold parseInt. destruct (parse_integer s) as [n|]; [|done].
  split; [done|]. intros H. by destruct (of_Z_not_NaN n).
Qed.

Lemma strict_equals_NaN (v : value) : strict_equals v NaN = false.
Proof. destruct v; try done. apply number_eqb_NaN_r. Qed.

Lemma has_id_matches seg c : has_id seg c = true <-> matches seg c.
Proof.
  unfold has_id, matches, prop, strict_equals. split.
  - destruct (c !! "id") as [[]|] eqn:Hid; simpl; try discriminate. eauto.
  - by intros (x & -> & Hx).
Qed.

(** A record addressed through a segment that reads as the integer [n] is a
    record whose id is the Number of [n]. *)
Lemma matches_id_is seg n c :
  parseInt seg = of_Z n -> matches seg c <-> id_is n c.
Proof. unfold matches, id_is. by intros ->. Qed.

Lemma has_id_not_matches seg c : has_id seg c = false <-> ~ matches seg c.
Proof.
  rewrite <- has_id_matches. by destruct (has_id seg c).
Qed.

(** ** findIndex and find *)

Section find_index.
Context {A : Type} (p : A -> bool).

Lemma findIndex_None (l : list A) :
  findIndex p l = None <-> (forall x, x ∈ l -> p x = false).
Proof.
  induction l as [|x l IH]; simpl.
  - split; [|done]. intros _ y Hy. by apply elem_of_nil in Hy.
  - destruct (p x) eqn:Hx.
    + split; [done|]. intros H. rewrite H in Hx; [done|]. apply elem_of_cons; auto.
    + destruct (findIndex p l) as [i|]; simpl.
      * split; [done|]. intros H. exfalso.
        assert (Some i = None) as E; [|done].
        apply IH. intros y Hy. apply H. apply elem_of_cons; auto.
      * split; [|done]. intros _ y [->|Hy]%elem_of_cons; [done|].
        by apply IH.
Qed.

(** [findIndex] returns the position of the first element that satisfies the
    callback. *)
Lemma findIndex_Some (l : list A) (i : nat) :
  findIndex p l = Some i ->
  exists l1 x l2,
    l = l1 ++ x :: l2 /\ length l1 = i /\ p x = true /\
    (forall y, y ∈ l1 -> p y = false).
Proof.
  revert i. induction l as [|x l IH]; simpl; [done|]. intros i.
  destruct (p x) eqn:Hx.
  - intros [= <-]. exists [], x, l. repeat split; try done.
    intros y Hy. by apply elem_of_nil in Hy.
  - destruct (findIndex p l) as [j|]; simpl; [|done].
    intros [= <-]. destruct (IH j eq_refl) as (l1 & y & l2 & -> & <- & Hy & Hl1).
    exists (x :: l1), y, l2. repeat split; try done.
    intros z [->|Hz]%elem_of_cons; auto.
Qed.

Lemma findIndex_lookup (l : list A) (i : nat) :
  findIndex p l = Some i -> exists x, l !! i = Some x /\ p x = true.
Proof.
  intros (l1 & x & l2 & -> & <- & Hx & _)%findIndex_Some.
  exists x. split; [|done]. by apply list_lookup_middle.
Qed.

(** [find] returns the element that [findIndex] points at. *)
Lemma find_findIndex (l : list A) :
  List.find p l = findIndex p l ≫= (l !!.).
Proof.
  induction l as [|x l IH]; simpl; [done|].
  destruct (p x); [done|]. rewrite IH. by destruct (findIndex p l).
Qed.

Lemma findIndex_is_Some (l : list A) (x : A) :
  x ∈ l -> p x = true -> is_Some (findIndex p l).
Proof.
  intros Hx Hp. destruct (findIndex p l) eqn:E; [by eexists|].
  rewrite findIndex_None in E. rewrite (E x Hx) in Hp. done.
Qed.

End find_index.

(** ** What the object literals contain *)

(** A client-supplied property overrides the one written before the spread. *)
Lemma spread_lookup_src target src k v :
  src !! k = Some v -> spread target src !! k = Some v.
Proof. intros H. unfold spread. by apply lookup_union_Some_l. Qed.

Lemma spread_lookup_target target src k :
  src !! k = None -> spread target src !! k = target !! k.
Proof. intros H. unfold spread. by apply lookup_union_r. Qed.

(** Without an [id] in the body, the literal is the body plus the [id]. *)
Lemma spread_id_absent v src :
  src !! "id" = None -> spread {[ "id" := v ]} src = <["id" := v]> src.
Proof. intros H. unfold spread. by rewrite insert_union_singleton_r. Qed.

(** With an [id] in the body, the literal is the body alone. *)
Lemma spread_id_present v w src :
  src !! "id" = Some w -> spread {[ "id" := v ]} src = src.
Proof. intros H. unfold spread. by eapply union_singleton_r. Qed.

(** Properties other than [id] come from the body only. *)
Lemma spread_id_other v src k :
  k <> "id" -> spread {[ "id" := v ]} src !! k = src !! k.
Proof.
  intros Hk. unfold spread. rewrite lookup_union, lookup_singleton_ne by done.
  by destruct (src !! k).
Qed.

(** ** The two outcomes of an id-addressed request *)

(** No stored record satisfies the callback: every id-addressed handler
    answers [not_found] and leaves the store as it is. *)
Lemma handlers_no_match seg s :
  (forall c, c ∈ cities s -> has_id seg c = false) ->
  get_city seg s = (not_found, s) /\
  (forall b, put_city seg b s = (not_found, s)) /\
  delete_city seg s = (not_found, s).
Proof.
  intros H. apply findIndex_None in H.
  unfold get_city, put_city, delete_city.
  rewrite find_findIndex, H. done.
Qed.

(** Some stored record satisfies the callback: the handlers act on the first
    such record, at its position. *)
Lemma handlers_match seg s c0 :
  c0 ∈ cities s -> has_id seg c0 = true ->
  exists l1 c l2,
    cities s = l1 ++ c :: l2 /\
    has_id seg c = true /\
    (forall y, y ∈ l1 -> has_id seg y = false) /\
    get_city seg s = (Response 200 (Some (VObj c)), s) /\
    (forall b,
       put_city seg b s =
       (Response 200 (Some (VObj (updated_city c b))),
        Store (l1 ++ updated_city c b :: l2) (nextId s))) /\
    delete_city seg s = (Response 204 None, Store (l1 ++ l2) (nextId s)).
Proof.
  intros Hin Hc0.
  destruct (findIndex_is_Some _ _ _ Hin Hc0) as [i Hi].
  destruct (findIndex_Some _ _ _ Hi) as (l1 & c & l2 & Hl & Hlen & Hc & Hl1).
  exists l1, c, l2. unfold get_city, put_city, delete_city.
  rewrite find_findIndex, Hi, Hl. subst i. cbn [mbind option_bind].
  rewrite list_lookup_middle by done.
  rewrite delete_middle. repeat split; try done.
  intros b. rewrite insert_app_r_alt by done. by rewrite Nat.sub_diag.
Qed.

(** ** Decimal prefixes under parseInt *)

(** Case analysis on every comparison of a goal about code units. *)
Ltac cases_on_tests :=
  repeat match goal with
         | |- context [(?a =? ?b)%N] => destruct (N.eqb_spec a b)
         | |- context [(?a <=? ?b)%N] => destruct (N.leb_spec a b)
         | |- context [(?a <? ?b)%Z] => destruct (Z.ltb_spec a b)
         end;
  cbn [andb orb];
  first [reflexivity | discriminate | lia | idtac].

Lemma radix_digit_decimal c :
  is_decimal_digit c = true -> radix_digit 10 c = Some (Z.of_N c - 48).
Proof.
  unfold is_decimal_digit, radix_digit, digit_value.
  cases_on_tests; intros _; cases_on_tests.
Qed.

Lemma radix_digit_not_decimal c :
  is_decimal_digit c = false -> radix_digit 10 c = None.
Proof.
  unfold is_decimal_digit, radix_digit, digit_value.
  cases_on_tests; intros _; cases_on_tests.
Qed.

Lemma decimal_digit_not_space c :
  is_decimal_digit c = true -> is_white_space c = false.
Proof. unfold is_decimal_digit, is_white_space. cases_on_tests. Qed.

Lemma take_digits_decimal ds rest :
  Forall (fun c => is_decimal_digit c = true) ds ->
  take_digits 10 rest = [] ->
  take_digits 10 (ds ++ rest) = map (fun c => Z.of_N c - 48) ds.
Proof.
  intros Hds Hrest. induction Hds as [|c ds Hc _ IH]; simpl; [done|].
  by rewrite (radix_digit_decimal c Hc), IH.
Qed.

(** A segment that begins with decimal digits and continues with something
    that is not a decimal digit parses to the integer the digits write,
    unless the digits are the single [0] of a [0x]/[0X] prefix. *)
Lemma parse_integer_decimal_prefix ds rest :
  ds <> [] ->
  Forall (fun c => is_decimal_digit c = true) ds ->
  take_digits 10 rest = [] ->
  ~ (ds = [48%N] /\ exists c rest', rest = c :: rest' /\ (c = 120%N \/ c = 88%N)) ->
  parse_integer (ds ++ rest) = Some (decimal_value ds).
Proof.
  intros Hne Hds Hrest Hhex.
  destruct ds as [|d ds]; [done|]. clear Hne.
  pose proof (Forall_inv Hds) as Hd.
  assert (Hd' := Hd). unfold is_decimal_digit in Hd'.
  apply andb_true_iff in Hd' as [Hd1%N.leb_le Hd2%N.leb_le].
  unfold parse_integer. cbn [app trim_start].
  rewrite (decimal_digit_not_space d Hd).
  assert ((d =? 45)%N = false) as -> by (apply N.eqb_neq; lia).
  assert ((d =? 43)%N = false) as -> by (apply N.eqb_neq; lia).
  cbn [orb].
  assert (match ds ++ rest with
          | [] => (10, d :: ds ++ rest)
          | c2 :: s' =>
              if ((d =? 48) && ((c2 =? 120) || (c2 =? 88)))%N
              then (16, s') else (10, d :: ds ++ rest)
          end = (10, d :: ds ++ rest)) as ->.
  { destruct ds as [|d2 ds]; cbn [app].
    - destruct rest as [|c rest]; [done|].
      destruct ((d =? 48) && ((c =? 120) || (c =? 88)))%N eqn:E; [|done].
      exfalso. apply Hhex.
      apply andb_true_iff in E as [->%N.eqb_eq E]. split; [done|].
      exists c, rest. split; [done|].
      apply orb_true_iff in E as [E%N.eqb_eq|E%N.eqb_eq]; auto.
    - apply Forall_inv_tail, Forall_inv in Hds. unfold is_decimal_digit in Hds.
      apply andb_true_iff in Hds as [_ H2%N.leb_le].
      assert ((d2 =? 120)%N = false) as -> by (apply N.eqb_neq; lia).
      assert ((d2 =? 88)%N = false) as -> by (apply N.eqb_neq; lia).
      by rewrite andb_false_r. }
  change (d :: ds ++ rest) with ((d :: ds) ++ rest).
  rewrite (take_digits_decimal (d :: ds) rest Hds Hrest).
  cbn [map]. unfold decimal_value. cbn [map]. f_equal. lia.
Qed.

(** A segment whose first code unit is neither white space, nor a sign, nor
    a decimal digit (a word such as [abc]) has no number to read. *)
Lemma parse_integer_no_numeral c rest :
  is_white_space c = false -> c <> 43%N -> c <> 45%N ->
  is_decimal_digit c = false ->
  parse_integer (c :: rest) = None.
Proof.
  intros Hsp H43%N.eqb_neq H45%N.eqb_neq Hd.
  unfold parse_integer. cbn [trim_start]. rewrite Hsp, H43, H45. cbn [orb].
  assert ((c =? 48)%N = false) as H48.
  { apply N.eqb_neq. intros ->. discriminate. }
  destruct rest as [|c2 rest]; rewrite ?H48; cbn [andb take_digits];
    by rewrite (radix_digit_not_decimal c Hd).
Qed.

(** A sign in front of a digit is read as the sign of the result. *)
Lemma parse_integer_signed sg d s :
  is_decimal_digit d = true ->
  parse_integer (sign_units sg ++ d :: s) =
  (fun m => match sg with MinusSign => - m | _ => m end) <$> parse_integer (d :: s).
Proof.
  intros Hd. pose proof (decimal_digit_not_space d Hd) as Hsp.
  unfold is_decimal_digit in Hd.
  apply andb_true_iff in Hd as [Hd1%N.leb_le Hd2%N.leb_le].
  assert ((d =? 45)%N = false) as H45 by (apply N.eqb_neq; lia).
  assert ((d =? 43)%N = false) as H43 by (apply N.eqb_neq; lia).
  unfold parse_integer. destruct sg; cbn [sign_units app trim_start];
    rewrite ?Hsp; cbn [is_white_space N.leb N.eqb N.compare Pos.compare
                       Pos.compare_cont Pos.eqb andb orb];
    rewrite ?H45, ?H43; cbn [orb];
    destruct (match s with
              | [] => (10, d :: s)
              | c2 :: s' =>
                  if ((d =? 48) && ((c2 =? 120) || (c2 =? 88)))%N
                  then (16, s') else (10, d :: s)
              end) as [R s3];
    destruct (take_digits R s3) as [|x xs]; cbn [fmap option_fmap option_map];
    try done; f_equal; lia.
Qed.

(** The same with a sign in front of the digits. *)
Lemma parse_integer_signed_decimal_prefix sg ds rest :
  ds <> [] ->
  Forall (fun c => is_decimal_digit c = true) ds ->
  take_digits 10 rest = [] ->
  ~ (ds = [48%N] /\ exists c rest', rest = c :: rest' /\ (c = 120%N \/ c = 88%N)) ->
  parse_integer (sign_units sg ++ ds ++ rest) = Some (signed_value sg ds).
Proof.
  intros Hne Hds Hrest Hhex.
  pose proof (parse_integer_decimal_prefix ds rest Hne Hds Hrest Hhex) as Hp.
  destruct ds as [|d ds]; [done|].
  cbn [app] in *. rewrite (parse_integer_signed sg d _ (Forall_inv Hds)), Hp.
  by destruct sg.
Qed.

(** ** Decimal numerals *)

Lemma decimal_value_snoc ds c :
  decimal_value (ds ++ [c]) = decimal_value ds * 10 + (Z.of_N c - 48).
Proof.
  unfold decimal_value, math_int. by rewrite map_app, fold_left_app.
Qed.

Lemma digit_code_unit d :
  0 <= d < 10 ->
  is_decimal_digit (Z.to_N (48 + d)) = true /\
  Z.of_N (Z.to_N (48 + d)) - 48 = d.
Proof.
  intros Hd. split; [|lia]. unfold is_decimal_digit. cases_on_tests.
Qed.

Lemma decimal_go_S fuel n acc :
  decimal_go (S fuel) n acc =
  if n <? 10 then Z.to_N (48 + n mod 10) :: acc
  else decimal_go fuel (n / 10) (Z.to_N (48 + n mod 10) :: acc).
Proof. reflexivity. Qed.

Lemma decimal_go_spec fuel : forall n acc,
  0 <= n < 2 ^ Z.of_nat (S fuel) ->
  exists p,
    decimal_go (S fuel) n acc = p ++ acc /\ p <> [] /\
    Forall (fun c => is_decimal_digit c = true) p /\
    decimal_value p = n.
Proof.
  assert (forall n, 0 <= n < 10 ->
            [Z.to_N (48 + n mod 10)] <> [] /\
            Forall (fun c => is_decimal_digit c = true) [Z.to_N (48 + n mod 10)] /\
            decimal_value [Z.to_N (48 + n mod 10)] = n) as Hone.
  { intros n Hn. rewrite Z.mod_small by done.
    destruct (digit_code_unit n Hn) as [H1 H2]. repeat split; [done| |].
    - by constructor.
    - unfold decimal_value, math_int. simpl. lia. }
  induction fuel as [|fuel IH]; intros n acc Hn.
  - exists [Z.to_N (48 + n mod 10)]. rewrite decimal_go_S.
    change (2 ^ Z.of_nat 1) with 2 in Hn.
    destruct (Z.ltb_spec n 10); [|lia].
    split; [done|]. apply Hone. lia.
  - rewrite decimal_go_S. destruct (Z.ltb_spec n 10) as [Hlt|Hge].
    + exists [Z.to_N (48 + n mod 10)]. split; [done|]. apply Hone. lia.
    + assert (0 <= n / 10 < 2 ^ Z.of_nat (S fuel)) as Hq.
      { rewrite (Nat2Z.inj_succ (S fuel)), Z.pow_succ_r in Hn by lia.
        split; [apply Z.div_pos; lia|].
        apply Z.div_lt_upper_bound; lia. }
      destruct (IH (n / 10) (Z.to_N (48 + n mod 10) :: acc) Hq)
        as (p & Hp & Hne & Hdig & Hval).
      exists (p ++ [Z.to_N (48 + n mod 10)]).
      pose proof (Z.mod_pos_bound n 10 ltac:(lia)) as Hm.
      destruct (digit_code_unit (n mod 10) Hm) as [H1 H2].
      rewrite Hp, <- app_assoc. split; [done|]. split; [|split].
      * by destruct p.
      * apply Forall_app. split; [done|]. by constructor.
      * rewrite decimal_value_snoc, Hval, H2.
        pose proof (Z.div_mod n 10 ltac:(lia)). lia.
Qed.

(** A client that writes a non-negative id in decimal addresses that id. *)
Lemma parse_integer_decimal (n : Z) : 0 <= n -> parse_integer (decimal n) = Some n.
Proof.
  intros Hn. unfold decimal.
  assert (0 <= n < 2 ^ Z.of_nat (S (Z.to_nat (Z.log2 n)))) as Hb.
  { split; [done|]. rewrite Nat2Z.inj_succ, Z2Nat.id by apply Z.log2_nonneg.
    destruct (Z.eq_dec n 0) as [->|]; [done|]. apply Z.log2_spec. lia. }
  destruct (decimal_go_spec _ n [] Hb) as (p & -> & Hne & Hdig & <-).
  apply parse_integer_decimal_prefix; try done.
  intros [_ (c & rest & ? & _)]. done.
Qed.

(** ** The counter *)

Lemma handle_nextId r s :
  nextId (snd (handle r s)) =
  match r with CreateCity _ => nextId s + 1 | _ => nextId s end.
Proof.
  destruct r as [|seg|b|seg b|seg]; simpl; try done.
  - unfold get_city. by destruct (List.find _ _).
  - unfold put_city. destruct (findIndex _ _) as [i|]; [|done].
    by destruct (cities s !! i).
  - unfold delete_city. by destruct (findIndex _ _).
Qed.

Lemma run_cons r rs s : run (r :: rs) s = run rs (snd (handle r s)).
Proof. reflexivity. Qed.

Lemma run_app rs1 rs2 s : run (rs1 ++ rs2) s = run rs2 (run rs1 s).
Proof. unfold run. apply fold_left_app. Qed.




(** ** Sequences of creations *)


(** ** Bodies that carry an [id] *)

Lemma new_city_id_absent n b :
  own_properties b !! "id" = None ->
  new_city n b = <["id" := num n]> (own_properties b).
Proof. apply spread_id_absent. Qed.

Lemma new_city_id_present n b v :
  own_properties b !! "id" = Some v -> new_city n b = own_properties b.
Proof. apply spread_id_present. Qed.

Lemma updated_city_id_absent old b :
  own_properties b !! "id" = None ->
  updated_city old b = <["id" := prop old "id"]> (own_properties b).
Proof. apply spread_id_absent. Qed.

Lemma updated_city_id_present old b v :
  own_properties b !! "id" = Some v -> updated_city old b = own_properties b.
Proof. apply spread_id_present. Qed.

Lemma updated_city_other_fields old b k :
  k <> "id" -> updated_city old b !! k = own_properties b !! k.
Proof. apply spread_id_other. Qed.

(** ** Clients that never send an [id] *)

Lemma ids_increasing_bounds cs : forall lo hi,
  ids_increasing lo cs hi -> lo <= hi.
Proof.
  induction cs as [|c cs IH]; intros lo hi; simpl; [done|].
  intros (i & _ & Hlo & H%IH). lia.
Qed.

Lemma ids_increasing_weaken cs : forall lo lo' hi hi',
  lo' <= lo -> hi <= hi' ->
  ids_increasing lo cs hi -> ids_increasing lo' cs hi'.
Proof.
  induction cs as [|c cs IH]; intros lo lo' hi hi' Hlo Hhi; simpl; [lia|].
  intros (i & Hc & Hi & H). exists i. split; [done|]. split; [lia|].
  eapply IH; [| |exact H]; lia.
Qed.

Lemma ids_increasing_app l1 : forall l2 lo hi,
  ids_increasing lo (l1 ++ l2) hi <->
  exists mid, ids_increasing lo l1 mid /\ ids_increasing mid l2 hi.
Proof.
  induction l1 as [|c l1 IH]; intros l2 lo hi; simpl.
  - split.
    + intros H. exists lo. split; [lia|done].
    + intros (mid & Hmid & H). eapply ids_increasing_weaken; [| |exact H]; lia.
  - split.
    + intros (i & Hc & Hi & (mid & H1 & H2)%IH). exists mid. split; [|done].
      exists i. done.
    + intros (mid & (i & Hc & Hi & H1) & H2). exists i.
      split; [done|]. split; [done|]. apply IH. by exists mid.
Qed.

Lemma ids_increasing_elem cs : forall lo hi c,
  ids_increasing lo cs hi -> c ∈ cs ->
  exists i, c !! "id" = Some (num i) /\ lo <= i < hi.
Proof.
  induction cs as [|c' cs IH]; intros lo hi c; simpl.
  - intros _ H. by apply elem_of_nil in H.
  - intros (i & Hc & Hi & H) [->|Hin]%elem_of_cons.
    + exists i. split; [done|]. apply ids_increasing_bounds in H. lia.
    + destruct (IH _ _ _ H Hin) as (j & Hj & Hb). exists j. split; [done|]. lia.
Qed.

Lemma num_inj i j : num i = num j -> i = j.
Proof. by intros [= ->]. Qed.

(** A record whose id is the integer [i] is addressed exactly by the
    segments that read as [i]. *)
Lemma matches_num seg c i n :
  c !! "id" = Some (num i) -> parseInt seg = Fin (inject_Z n) ->
  matches seg c <-> i = n.
Proof.
  intros Hc Hseg. unfold matches. rewrite Hc, Hseg. split.
  - intros (x & [= <-] & Hx). by apply number_eqb_Z.
  - intros ->. eexists. split; [done|]. by apply number_eqb_Z.
Qed.

Lemma exact_safe (n : Z) : Z.abs n < 2 ^ 53 -> exact n.
Proof. apply of_Z_safe. Qed.

Lemma id_is_num c i n :
  c !! "id" = Some (num i) -> exact n -> id_is n c <-> i = n.
Proof.
  intros Hc Hn. unfold id_is. rewrite Hc, Hn. split.
  - intros (x & [= <-] & Hx). by apply number_eqb_Z.
  - intros ->. eexists. split; [done|]. by apply number_eqb_Z.
Qed.

(** A client that writes an id in decimal addresses that id. *)
Lemma parseInt_decimal (n : Z) :
  0 <= n -> exact n -> parseInt (decimal n) = Fin (inject_Z n).
Proof.
  intros Hn He. by rewrite (parseInt_integer _ n) by (by apply parse_integer_decimal).
Qed.

Lemma handlers_cases seg s :
  (forall c, c ∈ cities s -> has_id seg c = false) \/
  (exists c, c ∈ cities s /\ has_id seg c = true).
Proof.
  destruct (findIndex (has_id seg) (cities s)) as [i|] eqn:E.
  - right. destruct (findIndex_lookup _ _ _ E) as (c & Hc & Hp).
    exists c. split; [|done]. apply list_elem_of_lookup. by exists i.
  - left. by apply findIndex_None.
Qed.

(** Served with a body that has no [id], every handler keeps the ids
    increasing along the array and below the counter. *)
Lemma server_ids_handle r s :
  id_free r -> server_ids s -> server_ids (snd (handle r s)).
Proof.
  unfold server_ids. intros Hr Hs.
  destruct r as [|seg|b|seg b|seg]; simpl in *.
  - done.
  - unfold get_city. by destruct (List.find _ _).
  - apply ids_increasing_app. exists (nextId s). split; [done|].
    exists (nextId s). rewrite (new_city_id_absent _ _ Hr), lookup_insert_eq.
    split; [done|]. simpl. lia.
  - destruct (handlers_cases seg s) as [Hno|(c0 & Hin & Hc0)].
    + destruct (handlers_no_match seg s Hno) as (_ & -> & _). done.
    + destruct (handlers_match seg s c0 Hin Hc0)
        as (l1 & c & l2 & Hl & _ & _ & _ & -> & _). simpl.
      rewrite Hl in Hs. apply ids_increasing_app in Hs as (mid & H1 & H2).
      apply ids_increasing_app. exists mid. split; [done|].
      destruct H2 as (i & Hc & Hi & H2). exists i. split; [|done].
      rewrite (updated_city_id_absent _ _ Hr), lookup_insert_eq.
      unfold prop. by rewrite Hc.
  - destruct (handlers_cases seg s) as [Hno|(c0 & Hin & Hc0)].
    + destruct (handlers_no_match seg s Hno) as (_ & _ & ->). done.
    + destruct (handlers_match seg s c0 Hin Hc0)
        as (l1 & c & l2 & Hl & _ & _ & _ & _ & ->). simpl.
      rewrite Hl in Hs. apply ids_increasing_app in Hs as (mid & H1 & H2).
      apply ids_increasing_app. exists mid. split; [done|].
      destruct H2 as (i & Hc & Hi & H2).
      eapply ids_increasing_weaken; [| |exact H2]; lia.
Qed.

Lemma server_ids_run rs : forall s,
  Forall id_free rs -> server_ids s -> server_ids (run rs s).
Proof.
  induction rs as [|r rs IH]; intros s Hrs Hs; [done|].
  rewrite run_cons. apply IH; [by eapply Forall_inv_tail|].
  apply server_ids_handle; [by eapply Forall_inv|done].
Qed.

Lemma server_ids_initial : server_ids initial.
Proof. unfold server_ids. simpl. lia. Qed.

Lemma ids_increasing_NoDup cs : forall lo hi,
  ids_increasing lo cs hi -> NoDup (map (fun c => prop c "id") cs).
Proof.
  induction cs as [|c cs IH]; intros lo hi; simpl; [constructor|].
  intros (i & Hc & Hi & H). constructor; [|by eapply IH].
  intros (c' & Hid & Hin)%list_elem_of_fmap.
  destruct (ids_increasing_elem _ _ _ _ H Hin) as (j & Hj & Hb).
  unfold prop in Hid. rewrite Hc, Hj in Hid. simpl in Hid.
  apply num_inj in Hid. lia.
Qed.

(** While no request body carries an [id], the invariant of the data model
    holds in every store reached from the empty one. *)
Lemma id_free_runs_keep_invariant rs :
  Forall id_free rs -> ids_unique_non_null (run rs initial).
Proof.
  intros Hrs.
  pose proof (server_ids_run rs initial Hrs server_ids_initial) as Hs.
  split; [|by eapply ids_increasing_NoDup].
  apply Forall_forall. intros c Hc.
  destruct (ids_increasing_elem _ _ _ _ Hs Hc) as (i & Hi & _).
  unfold prop. rewrite Hi. done.
Qed.

Lemma find_app_last {A} (p : A -> bool) (l : list A) (x : A) :
  (forall y, y ∈ l -> p y = false) -> p x = true ->
  List.find p (l ++ [x]) = Some x.
Proof.
  intros Hl Hx. induction l as [|y l IH]; simpl; [by rewrite Hx|].
  rewrite (Hl y) by (apply elem_of_cons; auto).
  apply IH. intros z Hz. apply Hl. apply elem_of_cons; auto.
Qed.

(** Round trip under the condition the code needs: when no stored record
    already has the id the counter is about to hand out, creating a payload
    without [id] and reading the returned id back yields the payload plus
    the id. *)
Lemma post_then_get_fresh (P : gmap string value) (s : store) :
  P !! "id" = None ->
  0 <= nextId s ->
  exact (nextId s) ->
  (forall c, c ∈ cities s -> ~ id_is (nextId s) c) ->
  let created := <["id" := num (nextId s)]> P in
  let s' := snd (post_city (BObj P) s) in
  fst (post_city (BObj P) s) = Response 201 (Some (VObj created)) /\
  get_city (decimal (nextId s)) s' = (Response 200 (Some (VObj created)), s').
Proof.
  intros HP Hn He Hfresh created s'.
  assert (new_city (nextId s) (BObj P) = created) as Hnew
    by by apply new_city_id_absent.
  split; [simpl; by rewrite Hnew|].
  unfold get_city, s'. simpl. rewrite Hnew.
  rewrite find_app_last; [done| |].
  - intros y Hy. apply has_id_not_matches. intros Hm.
    apply (Hfresh y Hy). apply (matches_id_is (decimal (nextId s))); [|done].
    by rewrite parseInt_decimal.
  - apply has_id_matches.
    apply (matches_num _ _ (nextId s) (nextId s)); [|by apply parseInt_decimal|done].
    apply lookup_insert_eq.
Qed.

(** In particular the round trip holds in every store reached through
    requests whose bodies carry no [id]. *)
Lemma id_free_runs_round_trip rs (P : gmap string value) :
  Forall id_free rs -> P !! "id" = None ->
  nextId (run rs initial) < 2 ^ 53 ->
  let s := run rs initial in
  let created := <["id" := num (nextId s)]> P in
  let s' := snd (post_city (BObj P) s) in
  fst (post_city (BObj P) s) = Response 201 (Some (VObj created)) /\
  get_city (decimal (nextId s)) s' = (Response 200 (Some (VObj created)), s').
Proof.
  intros Hrs HP Hsafe s.
  pose proof (server_ids_run rs initial Hrs server_ids_initial) as Hs.
  fold s in Hs, Hsafe. pose proof (ids_increasing_bounds _ _ _ Hs) as Hlo.
  assert (exact (nextId s)) as He by (apply exact_safe; lia).
  apply post_then_get_fresh; [done|lia|done|].
  intros c Hc Hid.
  destruct (ids_increasing_elem _ _ _ _ Hs Hc) as (i & Hi & Hb).
  apply (id_is_num _ _ _ Hi) in Hid; [lia|done].
Qed.


(** ** Segments without a numeral *)




(** ** Properties of the service *)

(** C1 (the code departs from it).  On the empty store the counter is 3; a
    creation whose body carries [id: 99] stores and returns a record with
    id 99: the spread of the body comes after the [id] property and
    overwrites it. *)
Theorem post_city_body_id_overrides :
  let b := BObj {[ "id" := num 99; "name" := VStr "Hawassa" ]} in
  let rec := {[ "id" := num 99; "name" := VStr "Hawassa" ]} in
  nextId initial = 3 /\
  post_city b initial = (Response 201 (Some (VObj rec)), Store [rec] 4) /\
  prop rec "id" <> num 3.
Proof.
  intros b rec. split; [done|]. split; [vm_compute; reflexivity|].
  vm_compute. intros [=].
Qed.

(** C2 (the code departs from it).  After one creation the store holds a
    record with id 3; a PUT addressed to [/cities/3] whose body carries
    [id: 7] leaves a record with id 7 in its place. *)
Theorem put_city_body_id_overrides :
  let s := snd (post_city (BObj {[ "name" := VStr "Gondar" ]}) initial) in
  let b := BObj {[ "id" := num 7; "name" := VStr "Gonder" ]} in
  let rec := {[ "id" := num 7; "name" := VStr "Gonder" ]} in
  cities s = [ {[ "id" := num 3; "name" := VStr "Gondar" ]} ] /\
  put_city (units "3") b s = (Response 200 (Some (VObj rec)), Store [rec] 4) /\
  prop rec "id" <> num 3.
Proof.
  intros s b rec. split; [vm_compute; reflexivity|].
  split; [vm_compute; reflexivity|]. vm_compute. intros [=].
Qed.

(** C3 (the code departs from it).  Three runs from the empty store reach a
    store that breaks the invariant: a creation with [id: null] in the body
    stores a record whose id is [null]; a creation with [id: 3] in the body
    after an ordinary creation stores a second record with id 3; and so does
    a PUT to [/cities/4] with [id: 3] in the body. *)
Theorem reachable_store_breaks_id_invariant :
  let rs1 := [CreateCity (BObj {[ "id" := VNull ]})] in
  let rs2 := [CreateCity (BObj ∅); CreateCity (BObj {[ "id" := num 3 ]})] in
  let rs3 := [CreateCity (BObj ∅); CreateCity (BObj ∅);
              UpdateCity (units "4") (BObj {[ "id" := num 3 ]})] in
  (cities (run rs1 initial) = [ {[ "id" := VNull ]} ] /\
   ~ ids_unique_non_null (run rs1 initial)) /\
  (cities (run rs2 initial) = [ {[ "id" := num 3 ]}; {[ "id" := num 3 ]} ] /\
   ~ ids_unique_non_null (run rs2 initial)) /\
  (cities (run rs3 initial) = [ {[ "id" := num 3 ]}; {[ "id" := num 3 ]} ] /\
   ~ ids_unique_non_null (run rs3 initial)).
Proof.
  intros rs1 rs2 rs3.
  assert (cities (run rs1 initial) = [ {[ "id" := VNull ]} ]) as H1
    by (vm_compute; reflexivity).
  assert (cities (run rs2 initial) =
          [ {[ "id" := num 3 ]}; {[ "id" := num 3 ]} ]) as H2
    by (vm_compute; reflexivity).
  assert (cities (run rs3 initial) =
          [ {[ "id" := num 3 ]}; {[ "id" := num 3 ]} ]) as H3
    by (vm_compute; reflexivity).
  unfold ids_unique_non_null. rewrite H1, H2, H3.
  split; [split; [done|]|split; (split; [done|])].
  - intros [Hn _]. apply Forall_inv in Hn as [Hn _]. by apply Hn.
  - intros [_ Hd]. cbn [map] in Hd. apply NoDup_cons in Hd as [Hd _].
    apply Hd. by left.
  - intros [_ Hd]. cbn [map] in Hd. apply NoDup_cons in Hd as [Hd _].
    apply Hd. by left.
Qed.

(** C4 (the code departs from it).  The fields other than [id] are replaced
    as claimed: after creating [{name: "A", population: 10, country: "X"}],
    a PUT with body [{name: "B"}] leaves [{id: 3, name: "B"}].  But a PUT
    whose body carries [id: 9] leaves [{id: 9, name: "B"}], which is not the
    original id plus the fields of the body. *)
Theorem put_city_replaces_id_too :
  let s := snd (post_city (BObj {[ "name" := VStr "A";
                                   "population" := num 10;
                                   "country" := VStr "X" ]}) initial) in
  let b1 := BObj {[ "name" := VStr "B" ]} in
  let b2 := BObj {[ "id" := num 9; "name" := VStr "B" ]} in
  let rec1 := {[ "id" := num 3; "name" := VStr "B" ]} in
  let rec2 := {[ "id" := num 9; "name" := VStr "B" ]} in
  put_city (units "3") b1 s = (Response 200 (Some (VObj rec1)), Store [rec1] 4) /\
  put_city (units "3") b2 s = (Response 200 (Some (VObj rec2)), Store [rec2] 4) /\
  rec2 <> <["id" := num 3]> (own_properties b2).
Proof.
  intros s b1 b2 rec1 rec2.
  split; [vm_compute; reflexivity|]. split; [vm_compute; reflexivity|].
  intros H. apply (f_equal (fun m => m !! "id")) in H.
  vm_compute in H. discriminate.
Qed.

(** C5 (the code departs from it).  A creation with [id: 4] in its body,
    served by the empty store, stores a record with id 4 and moves the
    counter to 4.  The valid payload [{name: "A"}] is then given id 4, and
    GET on [/cities/4] returns the older record, not the payload plus its
    id. *)
Theorem round_trip_broken_by_earlier_id :
  let s := snd (post_city (BObj {[ "id" := num 4; "name" := VStr "X" ]})
                          initial) in
  let P := {[ "name" := VStr "A" ]} in
  let older := {[ "id" := num 4; "name" := VStr "X" ]} in
  P !! "id" = None /\
  fst (post_city (BObj P) s) = Response 201 (Some (VObj (<["id" := num 4]> P))) /\
  fst (get_city (decimal 4) (snd (post_city (BObj P) s))) =
    Response 200 (Some (VObj older)) /\
  older <> <["id" := num 4]> P.
Proof.
  intros s P older. split; [done|].
  split; [vm_compute; reflexivity|]. split; [vm_compute; reflexivity|].
  intros H. apply (f_equal (fun m => m !! "name")) in H.
  vm_compute in H. discriminate.
Qed.


(** C7.  When the path segment addresses no stored record, GET, PUT and
    DELETE each answer 404 with the body [{"message":"City not found"}] and
    leave the store unchanged. *)
Theorem not_found_consistency (seg : list code_unit) (s : store) :
  (forall c, c ∈ cities s -> ~ matches seg c) ->
  status not_found = 404 /\
  body not_found = Some (VObj {[ "message" := VStr "City not found" ]}) /\
  get_city seg s = (not_found, s) /\
  (forall b, put_city seg b s = (not_found, s)) /\
  delete_city seg s = (not_found, s).
Proof.
  intros H. split; [done|]. split; [done|].
  apply handlers_no_match. intros c Hc. by apply has_id_not_matches, H.
Qed.

Lemma not_found_consistency_witness :
  let s := Store [ {[ "id" := num 3; "name" := VStr "Adama" ]} ] 4 in
  let seg := units "999999" in
  (forall c, c ∈ cities s -> ~ matches seg c) /\
  (status not_found = 404 /\
   body not_found = Some (VObj {[ "message" := VStr "City not found" ]}) /\
   get_city seg s = (not_found, s) /\
   (forall b, put_city seg b s = (not_found, s)) /\
   delete_city seg s = (not_found, s)).
Proof.
  intros s seg.
  assert (forall c, c ∈ cities s -> ~ matches seg c) as H.
  { intros c Hc%list_elem_of_singleton. subst c.
    apply has_id_not_matches. vm_compute. reflexivity. }
  split; [exact H|]. exact (not_found_consistency seg s H).
Defined.

(** C8 (the code departs from it).  The list is in insertion order, but
    deleting a stored record by its id can remove another record: after a
    creation (id 3) and a second creation whose body carries [id: 3], the
    store holds two records with id 3; DELETE [/cities/3], the deletion of
    the second record by its id, removes the first record and the second one
    is still listed. *)
Theorem delete_by_id_removes_another_record :
  let first := {[ "id" := num 3; "name" := VStr "first" ]} in
  let second := {[ "id" := num 3; "name" := VStr "second" ]} in
  let s := run [CreateCity (BObj {[ "name" := VStr "first" ]});
                CreateCity (BObj {[ "id" := num 3; "name" := VStr "second" ]})]
               initial in
  cities s = [first; second] /\
  prop second "id" = num 3 /\
  delete_city (units "3") s = (Response 204 None, Store [second] 5) /\
  fst (get_cities (snd (delete_city (units "3") s))) =
    Response 200 (Some (VArr [VObj second])) /\
  first <> second.
Proof.
  intros first second s. repeat split; try (vm_compute; reflexivity).
  intros H. apply (f_equal (fun m => m !! "name")) in H.
  vm_compute in H. discriminate.
Qed.




(** C10 (as amended).  A path segment that begins with an integer numeral
    (an optional sign and decimal digits) and continues with a code unit that
    is not a decimal digit is read as the integer [n] the numeral writes,
    except when the digits are the single [0] and the next code unit is [x]
    or [X] (then [0x] is a prefix selecting base 16).  If a record with id
    [n] is stored, GET, PUT and DELETE act on the first such record instead
    of answering 404. *)
Theorem numeric_prefix_addresses_record
    (s : store) (sg : sign) (ds : list code_unit) (c : code_unit)
    (rest : list code_unit) (city0 : gmap string value) :
  ds <> [] ->
  Forall (fun d => is_decimal_digit d = true) ds ->
  is_decimal_digit c = false ->
  ~ (ds = [48%N] /\ (c = 120%N \/ c = 88%N)) ->
  city0 ∈ cities s ->
  id_is (signed_value sg ds) city0 ->
  let seg := sign_units sg ++ ds ++ c :: rest in
  let n := signed_value sg ds in
  (parse_integer seg = Some n /\ parseInt seg = of_Z n) /\
  exists l1 city l2,
    cities s = l1 ++ city :: l2 /\
    id_is n city /\
    (forall y, y ∈ l1 -> ~ id_is n y) /\
    get_city seg s = (Response 200 (Some (VObj city)), s) /\
    (forall b,
       put_city seg b s =
       (Response 200 (Some (VObj (updated_city city b))),
        Store (l1 ++ updated_city city b :: l2) (nextId s))) /\
    delete_city seg s = (Response 204 None, Store (l1 ++ l2) (nextId s)).
Proof.
  intros Hne Hds Hc Hhex Hin Hid seg n.
  assert (parse_integer seg = Some n) as Hparse.
  { apply parse_integer_signed_decimal_prefix; try done.
    - simpl. by rewrite (radix_digit_not_decimal c Hc).
    - intros [-> (c' & rest' & [= <- <-] & Hx)]. by apply Hhex. }
  pose proof (parseInt_integer seg n Hparse) as Hnum.
  split; [done|].
  assert (forall y, has_id seg y = true <-> id_is n y) as Hiff.
  { intros y. rewrite has_id_matches. by apply matches_id_is. }
  destruct (handlers_match seg s city0 Hin (proj2 (Hiff city0) Hid))
    as (l1 & city & l2 & Hl & Hcity & Hl1 & Hget & Hput & Hdel).
  exists l1, city, l2. split; [done|]. split; [by apply Hiff|].
  split; [|done]. intros y Hy Hy'. apply Hiff in Hy'.
  by rewrite (Hl1 y Hy) in Hy'.
Qed.

Lemma numeric_prefix_addresses_record_witness :
  let city := {[ "id" := num 5; "name" := VStr "Bahir Dar" ]} in
  let s := Store [ {[ "id" := num 3 ]}; city ] 6 in
  let ds := units "5" in
  let c := 97%N in
  let rest := units "bc" in
  let seg := sign_units NoSign ++ ds ++ c :: rest in
  let n := signed_value NoSign ds in
  (ds <> [] /\
   Forall (fun d => is_decimal_digit d = true) ds /\
   is_decimal_digit c = false /\
   ~ (ds = [48%N] /\ (c = 120%N \/ c = 88%N)) /\
   city ∈ cities s /\
   id_is n city) /\
  (seg = units "5abc" /\ n = 5) /\
  ((parse_integer seg = Some n /\ parseInt seg = of_Z n) /\
   exists l1 city' l2,
     cities s = l1 ++ city' :: l2 /\
     id_is n city' /\
     (forall y, y ∈ l1 -> ~ id_is n y) /\
     get_city seg s = (Response 200 (Some (VObj city')), s) /\
     (forall b,
        put_city seg b s =
        (Response 200 (Some (VObj (updated_city city' b))),
         Store (l1 ++ updated_city city' b :: l2) (nextId s))) /\
     delete_city seg s = (Response 204 None, Store (l1 ++ l2) (nextId s))).
Proof.
  intros city s ds c rest seg n.
  assert (ds <> []) as H1 by done.
  assert (Forall (fun d => is_decimal_digit d = true) ds) as H2
    by (by constructor).
  assert (is_decimal_digit c = false) as H3 by reflexivity.
  assert (~ (ds = [48%N] /\ (c = 120%N \/ c = 88%N))) as H4.
  { intros [_ [?|?]]; discriminate. }
  assert (city ∈ cities s) as H5.
  { apply list_elem_of_In. simpl. auto. }
  assert (id_is n city) as H6.
  { exists (Fin 5). split; vm_compute; reflexivity. }
  split; [by repeat split|]. split; [by split|].
  exact (numeric_prefix_addresses_record s NoSign ds c rest city
           H1 H2 H3 H4 H5 H6).
Defined.

(** C10 (as stated) fails on the segment [0xyz]: its leading digit writes
    the integer 0 and [xyz] is not numeric, a record with id 0 is stored
    (created with a body that carries [id: 0]), and yet [parseInt] reads
    [NaN] and GET answers 404. *)
Lemma numeric_prefix_hex_counterexample :
  let s := snd (post_city (BObj {[ "id" := num 0 ]}) initial) in
  let ds := units "0" in
  let seg := ds ++ units "xyz" in
  (ds <> [] /\
   Forall (fun d => is_decimal_digit d = true) ds /\
   is_decimal_digit 120%N = false /\
   decimal_value ds = 0 /\
   exists city, city ∈ cities s /\ id_is 0 city) /\
  parseInt seg = NaN /\
  get_city seg s = (not_found, s).
Proof.
  intros s ds seg. split; [|split; reflexivity].
  split; [done|]. split; [by constructor|]. split; [done|]. split; [done|].
  exists {[ "id" := num 0 ]}. split.
  - apply list_elem_of_In. left. vm_compute. reflexivity.
  - exists (Fin 0). split; vm_compute; reflexivity.
Qed.

(** ** Further lemmas on the handlers *)

Section find_first.
Context {A : Type} (p : A -> bool).

Lemma findIndex_app_first (l1 l2 : list A) (x : A) :
  (forall y, y ∈ l1 -> p y = false) -> p x = true ->
  findIndex p (l1 ++ x :: l2) = Some (length l1).
Proof.
  intros Hl1 Hx. induction l1 as [|y l1 IH]; simpl; [by rewrite Hx|].
  rewrite (Hl1 y) by (apply elem_of_cons; auto).
  rewrite IH; [done|]. intros z Hz. apply Hl1, elem_of_cons; auto.
Qed.

Lemma findIndex_all_false (l : list A) :
  (forall y, y ∈ l -> p y = false) -> findIndex p l = None.
Proof. apply findIndex_None. Qed.

Lemma existsb_findIndex (l : list A) :
  existsb p l = bool_decide (is_Some (findIndex p l)).
Proof.
  induction l as [|x l IH]; simpl; [done|].
  destruct (p x); simpl; [done|]. rewrite IH.
  by destruct (findIndex p l).
Qed.

End find_first.

(** Two callbacks that agree on every element find the same position. *)
Lemma findIndex_ext {A} (p q : A -> bool) (l : list A) :
  (forall y, y ∈ l -> p y = q y) -> findIndex p l = findIndex q l.
Proof.
  intros H. induction l as [|x l IH]; simpl; [done|].
  rewrite (H x) by (apply elem_of_cons; auto).
  rewrite IH; [done|]. intros y Hy. apply H, elem_of_cons; auto.
Qed.

(** The callback only looks at the [id] property. *)
Lemma has_id_same_id seg c c' :
  prop c "id" = prop c' "id" -> has_id seg c = has_id seg c'.
Proof. unfold has_id. by intros ->. Qed.

Lemma updated_city_keeps_id old b :
  own_properties b !! "id" = None ->
  prop (updated_city old b) "id" = prop old "id".
Proof.
  intros H. rewrite (updated_city_id_absent _ _ H).
  unfold prop at 1. by rewrite lookup_insert_eq.
Qed.

Lemma id_is_same_id n c c' :
  prop c "id" = prop c' "id" -> id_is n c -> id_is n c'.
Proof.
  unfold id_is, prop. intros H (q & Hq & Hn). rewrite Hq in H. simpl in H.
  destruct (c' !! "id") as [v|]; simpl in H; [|done]. subst v. eauto.
Qed.

(** A record addressed by one segment is not addressed by a segment that
    reads as a different Number. *)
Lemma matches_other seg seg' c :
  matches seg c ->
  number_eqb (parseInt seg) (parseInt seg') = false ->
  has_id seg' c = false.
Proof.
  intros (x & Hx & Hm) Hne. unfold has_id, prop. rewrite Hx. simpl.
  by rewrite (number_eqb_trans x (parseInt seg) (parseInt seg') Hm).
Qed.

(** Status of the answer to an id-addressed request. *)
Lemma handlers_status seg s :
  let hit := existsb (has_id seg) (cities s) in
  status (fst (get_city seg s)) = (if hit then 200 else 404) /\
  (forall b, status (fst (put_city seg b s)) = (if hit then 200 else 404)) /\
  status (fst (delete_city seg s)) = (if hit then 204 else 404).
Proof.
  intros hit. unfold hit. rewrite existsb_findIndex.
  destruct (handlers_cases seg s) as [Hno|(c0 & Hin & Hc0)].
  - destruct (handlers_no_match seg s Hno) as (-> & Hput & ->).
    rewrite (findIndex_all_false _ _ Hno).
    rewrite bool_decide_eq_false_2 by (by intros [? ?]).
    split; [done|]. split; [|done]. intros b. by rewrite Hput.
  - destruct (findIndex_is_Some _ _ _ Hin Hc0) as [i Hi].
    destruct (handlers_match seg s c0 Hin Hc0)
      as (l1 & c & l2 & _ & _ & _ & -> & Hput & ->).
    rewrite Hi. rewrite bool_decide_eq_true_2 by (by eexists).
    split; [done|]. split; [|done]. intros b. by rewrite Hput.
Qed.

Lemma creations_cons r rs :
  creations (r :: rs) = if is_create r then S (creations rs) else creations rs.
Proof. unfold creations. simpl. by destruct (is_create r). Qed.

Lemma assigned_ids_cons r rs s :
  assigned_ids (r :: rs) s =
  if is_create r then nextId s :: assigned_ids rs (snd (handle r s))
  else assigned_ids rs (snd (handle r s)).
Proof. by destruct r. Qed.

Lemma handle_nextId_create r s :
  nextId (snd (handle r s)) = nextId s + (if is_create r then 1 else 0).
Proof. rewrite handle_nextId. destruct r; simpl; lia. Qed.

(** ** Further properties of the service *)

(** X1.  The ids handed out are consecutive: while a sequence of requests is
    served, the creations receive the counter value of the start, the next
    integer, and so on without a gap, whatever else is requested in between;
    the counter ends at its start value plus the number of creations. *)
Theorem assigned_ids_consecutive (rs : list request) (s : store) :
  assigned_ids rs s = seqZ (nextId s) (Z.of_nat (creations rs)) /\
  nextId (run rs s) = nextId s + Z.of_nat (creations rs).
Proof.
  revert s. induction rs as [|r rs IH]; intros s.
  - split; [done|]. unfold creations. simpl. lia.
  - rewrite run_cons, creations_cons, assigned_ids_cons.
    destruct (IH (snd (handle r s))) as [IH1 IH2].
    rewrite handle_nextId_create in IH1, IH2. rewrite IH1, IH2.
    destruct (is_create r).
    + rewrite (seqZ_cons (nextId s)) by lia. split; [|lia].
      f_equal. f_equal; lia.
    + rewrite Z.add_0_r. done.
Qed.

(** X2.  The status of every answer is fixed by the method and by whether
    the path segment addresses a stored record: 200 for the list, 201 for a
    creation, 200 or 404 for a read or an update, 204 or 404 for a deletion.
    In particular an update never reads outside the array.  Only the 204
    answer has no body. *)
Theorem response_status_by_method (r : request) (s : store) :
  let hit seg := existsb (has_id seg) (cities s) in
  status (fst (handle r s)) =
    match r with
    | ListCities => 200
    | CreateCity _ => 201
    | GetCity seg | UpdateCity seg _ => if hit seg then 200 else 404
    | DeleteCity seg => if hit seg then 204 else 404
    end /\
  (body (fst (handle r s)) = None <-> status (fst (handle r s)) = 204).
Proof.
  intros hit. unfold hit.
  destruct r as [|seg|b|seg b|seg]; simpl; try (split; [done|done]).
  - destruct (handlers_status seg s) as (H & _ & _). split; [done|].
    unfold get_city. by destruct (List.find _ _).
  - destruct (handlers_status seg s) as (_ & H & _). split; [done|].
    unfold put_city. destruct (findIndex _ _) as [i|] eqn:E; [|done].
    destruct (findIndex_lookup _ _ _ E) as (x & -> & _). done.
  - destruct (handlers_status seg s) as (_ & _ & H). split; [done|].
    unfold delete_city. by destruct (findIndex _ _).
Qed.

(** X3.  The size of the collection changes by exactly one on a creation and
    on a deletion that addresses a record, and not at all otherwise (reads,
    updates, and requests that are answered 404). *)
Theorem collection_size_by_method (r : request) (s : store) :
  Z.of_nat (length (cities (snd (handle r s)))) =
  Z.of_nat (length (cities s)) +
    match r with
    | CreateCity _ => 1
    | DeleteCity seg => if existsb (has_id seg) (cities s) then -1 else 0
    | _ => 0
    end.
Proof.
  destruct r as [|seg|b|seg b|seg]; simpl.
  - lia.
  - unfold get_city. destruct (List.find _ _); simpl; lia.
  - rewrite length_app. simpl. lia.
  - destruct (handlers_cases seg s) as [Hno|(c0 & Hin & Hc0)].
    + destruct (handlers_no_match seg s Hno) as (_ & -> & _). simpl. lia.
    + destruct (handlers_match seg s c0 Hin Hc0)
        as (l1 & c & l2 & Hl & _ & _ & _ & -> & _).
      simpl. rewrite Hl, !length_app. simpl. lia.
  - rewrite existsb_findIndex.
    destruct (handlers_cases seg s) as [Hno|(c0 & Hin & Hc0)].
    + destruct (handlers_no_match seg s Hno) as (_ & _ & ->).
      rewrite (findIndex_all_false _ _ Hno).
      rewrite bool_decide_eq_false_2 by (by intros [? ?]). simpl. lia.
    + destruct (findIndex_is_Some _ _ _ Hin Hc0) as [i Hi].
      destruct (handlers_match seg s c0 Hin Hc0)
        as (l1 & c & l2 & Hl & _ & _ & _ & _ & ->).
      rewrite Hi, bool_decide_eq_true_2 by (by eexists).
      simpl. rewrite Hl, !length_app. simpl. lia.
Qed.

(** X4.  Reading never changes the store, and a read by id is answered
    either with 404, exactly when the segment addresses no stored record, or
    with 200 and the first stored record that the segment addresses. *)
Theorem get_city_sound_and_complete (seg : list code_unit) (s : store) :
  snd (get_cities s) = s /\
  snd (get_city seg s) = s /\
  ((fst (get_city seg s) = not_found /\
    forall c, c ∈ cities s -> ~ matches seg c) \/
   (exists l1 c l2,
      cities s = l1 ++ c :: l2 /\ matches seg c /\
      (forall y, y ∈ l1 -> ~ matches seg y) /\
      fst (get_city seg s) = Response 200 (Some (VObj c)))).
Proof.
  split; [done|].
  destruct (handlers_cases seg s) as [Hno|(c0 & Hin & Hc0)].
  - destruct (handlers_no_match seg s Hno) as (-> & _ & _).
    split; [done|]. left. split; [done|].
    intros c Hc. by apply has_id_not_matches, Hno.
  - destruct (handlers_match seg s c0 Hin Hc0)
      as (l1 & c & l2 & Hl & Hc & Hl1 & -> & _ & _).
    split; [done|]. right. exists l1, c, l2.
    split; [done|]. split; [by apply has_id_matches|].
    split; [|done]. intros y Hy. by apply has_id_not_matches, Hl1.
Qed.

(** What an update with a body that has no [id] leaves behind. *)
Lemma put_city_id_free seg b s c0 :
  own_properties b !! "id" = None ->
  c0 ∈ cities s -> matches seg c0 ->
  exists l1 c l2,
    cities s = l1 ++ c :: l2 /\
    matches seg c /\
    (forall y, y ∈ l1 -> has_id seg y = false) /\
    has_id seg (updated_city c b) = true /\
    updated_city c b = <["id" := prop c "id"]> (own_properties b) /\
    put_city seg b s =
      (Response 200 (Some (VObj (updated_city c b))),
       Store (l1 ++ updated_city c b :: l2) (nextId s)).
Proof.
  intros Hb Hin Hm%has_id_matches.
  destruct (handlers_match seg s c0 Hin Hm)
    as (l1 & c & l2 & Hl & Hc & Hl1 & _ & Hput & _).
  exists l1, c, l2. split; [done|]. split; [by apply has_id_matches|].
  split; [done|]. split.
  - rewrite <- Hc. apply has_id_same_id. by apply updated_city_keeps_id.
  - split; [by apply updated_city_id_absent|apply Hput].
Qed.

(** X5.  Update then read: when the body has no [id] and the segment
    addresses a stored record, the update stores the record's id plus the
    fields of the body, and a read with the same segment then returns
    exactly the record the update returned. *)
Theorem put_then_get (seg : list code_unit) (b : reqbody) (s : store)
    (c0 : gmap string value) :
  own_properties b !! "id" = None ->
  c0 ∈ cities s -> matches seg c0 ->
  let s' := snd (put_city seg b s) in
  exists c,
    c ∈ cities s /\ matches seg c /\
    fst (put_city seg b s) =
      Response 200 (Some (VObj (<["id" := prop c "id"]> (own_properties b)))) /\
    get_city seg s' = (fst (put_city seg b s), s').
Proof.
  intros Hb Hin Hm s'.
  destruct (put_city_id_free seg b s c0 Hb Hin Hm)
    as (l1 & c & l2 & Hl & Hc & Hl1 & Hu & Heq & Hput).
  exists c. split; [rewrite Hl; apply elem_of_app; right; by left|].
  split; [done|]. unfold s'. rewrite Hput. simpl. split; [by rewrite Heq|].
  unfold get_city. simpl.
  rewrite find_findIndex, (findIndex_app_first _ _ _ _ Hl1 Hu). simpl.
  by rewrite list_lookup_middle.
Qed.

Lemma put_then_get_witness :
  let s := Store [ {[ "id" := num 3; "name" := VStr "A" ]};
                   {[ "id" := num 4; "name" := VStr "B";
                      "population" := num 10 ]} ] 5 in
  let b := BObj {[ "name" := VStr "Bee" ]} in
  let seg := units "4" in
  let c0 := {[ "id" := num 4; "name" := VStr "B"; "population" := num 10 ]} in
  (own_properties b !! "id" = None /\ c0 ∈ cities s /\ matches seg c0) /\
  let s' := snd (put_city seg b s) in
  exists c,
    c ∈ cities s /\ matches seg c /\
    fst (put_city seg b s) =
      Response 200 (Some (VObj (<["id" := prop c "id"]> (own_properties b)))) /\
    get_city seg s' = (fst (put_city seg b s), s').
Proof.
  intros s b seg c0.
  assert (own_properties b !! "id" = None) as H1 by reflexivity.
  assert (c0 ∈ cities s) as H2.
  { apply list_elem_of_In. simpl. auto. }
  assert (matches seg c0) as H3.
  { apply has_id_matches. vm_compute. reflexivity. }
  split; [done|]. exact (put_then_get seg b s c0 H1 H2 H3).
Defined.

(** X6.  An update is idempotent: when the body has no [id] and the segment
    addresses a stored record, sending the same update a second time gives
    the same answer and leaves the store as the first one left it. *)
Theorem put_city_idempotent (seg : list code_unit) (b : reqbody) (s : store)
    (c0 : gmap string value) :
  own_properties b !! "id" = None ->
  c0 ∈ cities s -> matches seg c0 ->
  put_city seg b (snd (put_city seg b s)) =
  (fst (put_city seg b s), snd (put_city seg b s)).
Proof.
  intros Hb Hin Hm.
  destruct (put_city_id_free seg b s c0 Hb Hin Hm)
    as (l1 & c & l2 & Hl & Hc & Hl1 & Hu & Heq & Hput).
  rewrite Hput. simpl. unfold put_city at 1. simpl.
  rewrite (findIndex_app_first _ _ _ _ Hl1 Hu).
  rewrite list_lookup_middle by done.
  rewrite insert_app_r_alt by done. rewrite Nat.sub_diag. simpl.
  assert (updated_city (updated_city c b) b = updated_city c b) as ->; [|done].
  rewrite (updated_city_id_absent (updated_city c b) b Hb).
  rewrite (updated_city_keeps_id c b Hb). by rewrite <- Heq.
Qed.

Lemma put_city_idempotent_witness :
  let s := Store [ {[ "id" := num 3; "name" := VStr "A" ]};
                   {[ "id" := num 4; "name" := VStr "B" ]} ] 5 in
  let b := BObj {[ "name" := VStr "Bee"; "country" := VStr "X" ]} in
  let seg := units "4" in
  let c0 := {[ "id" := num 4; "name" := VStr "B" ]} in
  (own_properties b !! "id" = None /\ c0 ∈ cities s /\ matches seg c0) /\
  put_city seg b (snd (put_city seg b s)) =
  (fst (put_city seg b s), snd (put_city seg b s)).
Proof.
  intros s b seg c0.
  assert (own_properties b !! "id" = None) as H1 by reflexivity.
  assert (c0 ∈ cities s) as H2.
  { apply list_elem_of_In. simpl. auto. }
  assert (matches seg c0) as H3.
  { apply has_id_matches. vm_compute. reflexivity. }
  split; [done|]. exact (put_city_idempotent seg b s c0 H1 H2 H3).
Defined.

(** X7.  Delete then read: when the segment addresses exactly one stored
    record, its deletion is answered 204 with no body, and afterwards a read,
    an update and a second deletion with the same segment are all answered
    404 and change nothing. *)
Theorem delete_then_not_found (seg : list code_unit) (s : store)
    (c0 : gmap string value) :
  addressed_once seg s ->
  c0 ∈ cities s -> matches seg c0 ->
  let s' := snd (delete_city seg s) in
  fst (delete_city seg s) = Response 204 None /\
  get_city seg s' = (not_found, s') /\
  (forall b, put_city seg b s' = (not_found, s')) /\
  delete_city seg s' = (not_found, s').
Proof.
  intros Honce Hin Hm%has_id_matches s'.
  destruct (handlers_match seg s c0 Hin Hm)
    as (l1 & c & l2 & Hl & Hc & Hl1 & _ & _ & Hdel).
  unfold s'. rewrite Hdel. simpl. split; [done|].
  apply handlers_no_match. simpl.
  intros y [Hy|Hy]%elem_of_app; [by apply Hl1|].
  apply has_id_not_matches. intros Hmy.
  apply list_elem_of_lookup in Hy as [j Hj].
  assert (cities s !! (length l1 + S j)%nat = Some y) as Hy.
  { rewrite Hl, lookup_app_r by lia.
    by replace (length l1 + S j - length l1)%nat with (S j) by lia. }
  assert (cities s !! length l1 = Some c) as Hc'.
  { rewrite Hl. by apply list_lookup_middle. }
  apply has_id_matches in Hc.
  pose proof (Honce _ _ _ _ Hc' Hy Hc Hmy). lia.
Qed.

Lemma delete_then_not_found_witness :
  let c0 := {[ "id" := num 4; "name" := VStr "B" ]} in
  let s := Store [ {[ "id" := num 3; "name" := VStr "A" ]}; c0 ] 5 in
  let seg := units "4" in
  (addressed_once seg s /\ c0 ∈ cities s /\ matches seg c0) /\
  let s' := snd (delete_city seg s) in
  fst (delete_city seg s) = Response 204 None /\
  get_city seg s' = (not_found, s') /\
  (forall b, put_city seg b s' = (not_found, s')) /\
  delete_city seg s' = (not_found, s').
Proof.
  intros c0 s seg.
  assert (addressed_once seg s) as H1.
  { intros i j c c' Hi Hj Hc%has_id_matches Hc'%has_id_matches.
    destruct i as [|[|i]]; destruct j as [|[|j]]; simpl in Hi, Hj;
      try done; simplify_eq; vm_compute in Hc, Hc'; discriminate. }
  assert (c0 ∈ cities s) as H2.
  { apply list_elem_of_In. simpl. auto. }
  assert (matches seg c0) as H3.
  { apply has_id_matches. vm_compute. reflexivity. }
  split; [done|]. exact (delete_then_not_found seg s c0 H1 H2 H3).
Defined.

Lemma server_ids_addressed_once seg s : server_ids s -> addressed_once seg s.
Proof.
  intros Hs i j c c' Hi Hj (x & Hx & Hc) (x' & Hx' & Hc').
  destruct (ids_increasing_elem _ _ _ _ Hs (list_elem_of_lookup_2 _ _ _ Hi))
    as (a & Ha & _).
  destruct (ids_increasing_elem _ _ _ _ Hs (list_elem_of_lookup_2 _ _ _ Hj))
    as (a' & Ha' & _).
  rewrite Ha in Hx. rewrite Ha' in Hx'.
  injection Hx as <-. injection Hx' as <-.
  assert (a = a') as <-.
  { apply number_eqb_Z. rewrite (number_eqb_trans _ _ _ Hc).
    by rewrite number_eqb_sym. }
  apply (NoDup_lookup (map (fun c => prop c "id") (cities s)) i j (num a)).
  - by eapply ids_increasing_NoDup.
  - change (map ?f ?l) with (f <$> l). rewrite list_lookup_fmap, Hi. simpl.
    unfold prop. by rewrite Ha.
  - change (map ?f ?l) with (f <$> l). rewrite list_lookup_fmap, Hj. simpl.
    unfold prop. by rewrite Ha'.
Qed.

(** X8.  While no request body carries an [id], every store reached from
    the initial one keeps the ids in order: each record's id is an integer
    from 3 up to the counter (excluded), the ids increase strictly along the
    array, so every record has an id that is not null, no two records share
    one, and a path segment addresses at most one record. *)
Theorem id_free_runs_keep_ids_ordered (rs : list request) :
  Forall id_free rs ->
  let s := run rs initial in
  server_ids s /\
  ids_unique_non_null s /\
  (forall c, c ∈ cities s ->
     exists i, c !! "id" = Some (num i) /\ 3 <= i < nextId s) /\
  (forall seg, addressed_once seg s).
Proof.
  intros Hrs s.
  pose proof (server_ids_run rs initial Hrs server_ids_initial) as Hs.
  fold s in Hs. split; [done|].
  split; [by apply id_free_runs_keep_invariant|].
  split; [intros c Hc; by eapply ids_increasing_elem|].
  intros seg. by apply server_ids_addressed_once.
Qed.

Lemma id_free_runs_keep_ids_ordered_witness :
  let rs := [CreateCity (BObj {[ "name" := VStr "A" ]});
             CreateCity (BObj {[ "name" := VStr "B" ]});
             UpdateCity (units "3") (BObj {[ "name" := VStr "C" ]});
             DeleteCity (units "4");
             CreateCity (BArr [VNull])] in
  Forall id_free rs /\
  let s := run rs initial in
  server_ids s /\
  ids_unique_non_null s /\
  (forall c, c ∈ cities s ->
     exists i, c !! "id" = Some (num i) /\ 3 <= i < nextId s) /\
  (forall seg, addressed_once seg s).
Proof.
  intros rs.
  assert (Forall id_free rs) as H by (repeat constructor).
  split; [exact H|]. exact (id_free_runs_keep_ids_ordered rs H).
Defined.

(** X9.  Create then read: when the payload has no [id] and no stored record
    already has the id the counter is about to hand out, the creation
    returns the payload plus that id, and a read of the returned id, written
    in decimal, returns the same object.  The counter is a Number, so its
    value is one a Number holds exactly. *)
Theorem post_then_get_round_trip (P : gmap string value) (s : store) :
  P !! "id" = None ->
  0 <= nextId s ->
  exact (nextId s) ->
  (forall c, c ∈ cities s -> ~ id_is (nextId s) c) ->
  let made := <["id" := num (nextId s)]> P in
  let s' := snd (post_city (BObj P) s) in
  fst (post_city (BObj P) s) = Response 201 (Some (VObj made)) /\
  get_city (decimal (nextId s)) s' = (Response 200 (Some (VObj made)), s').
Proof. intros HP Hn He Hfresh. by apply post_then_get_fresh. Qed.

Lemma post_then_get_round_trip_witness :
  let P := {[ "name" := VStr "Addis Ababa"; "population" := num 5000000 ]} in
  let s := Store [ {[ "id" := num 3; "name" := VStr "A" ]};
                   {[ "id" := VStr "12" ]} ] 12 in
  (P !! "id" = None /\ 0 <= nextId s /\ exact (nextId s) /\
   forall c, c ∈ cities s -> ~ id_is (nextId s) c) /\
  let made := <["id" := num (nextId s)]> P in
  let s' := snd (post_city (BObj P) s) in
  fst (post_city (BObj P) s) = Response 201 (Some (VObj made)) /\
  get_city (decimal (nextId s)) s' = (Response 200 (Some (VObj made)), s').
Proof.
  intros P s.
  assert (P !! "id" = None) as H1 by reflexivity.
  assert (0 <= nextId s) as H2 by (simpl; lia).
  assert (exact (nextId s)) as He by reflexivity.
  assert (forall c, c ∈ cities s -> ~ id_is (nextId s) c) as H3.
  { intros c Hc (q & Hq & Hn). apply list_elem_of_In in Hc. simpl in Hc.
    destruct Hc as [<-|[<-|[]]]; vm_compute in Hq; [|discriminate].
    injection Hq as <-. vm_compute in Hn. discriminate. }
  split; [done|]. exact (post_then_get_round_trip P s H1 H2 He H3).
Defined.

Lemma retired_handle n r s :
  exact n -> id_free r -> retired n s -> retired n (snd (handle r s)).
Proof.
  intros He Hr [Hlt Habs]. split.
  { rewrite handle_nextId. destruct r; lia. }
  destruct r as [|seg|b|seg b|seg]; simpl in *.
  - done.
  - unfold get_city. by destruct (List.find _ _).
  - intros c [Hc|Hc]%elem_of_app; [by apply Habs|].
    apply list_elem_of_singleton in Hc as ->.
    rewrite (new_city_id_absent _ _ Hr). intros Hid.
    apply (id_is_num _ (nextId s)) in Hid; [lia|apply lookup_insert_eq|done].
  - destruct (handlers_cases seg s) as [Hno|(c0 & Hin & Hc0)].
    + destruct (handlers_no_match seg s Hno) as (_ & -> & _). done.
    + destruct (handlers_match seg s c0 Hin Hc0)
        as (l1 & c & l2 & Hl & _ & _ & _ & -> & _). simpl.
      intros y Hy Hid. apply elem_of_app in Hy as [Hy|Hy].
      { apply (Habs y); [|done]. rewrite Hl. apply elem_of_app. by left. }
      apply elem_of_cons in Hy as [->|Hy].
      * apply (Habs c).
        { rewrite Hl. apply elem_of_app. right. by left. }
        eapply id_is_same_id; [|exact Hid]. by apply updated_city_keeps_id.
      * apply (Habs y); [|done]. rewrite Hl. apply elem_of_app. right. by right.
  - destruct (handlers_cases seg s) as [Hno|(c0 & Hin & Hc0)].
    + destruct (handlers_no_match seg s Hno) as (_ & _ & ->). done.
    + destruct (handlers_match seg s c0 Hin Hc0)
        as (l1 & c & l2 & Hl & _ & _ & _ & _ & ->). simpl.
      intros y Hy. apply Habs. rewrite Hl.
      apply elem_of_app in Hy as [Hy|Hy]; apply elem_of_app; [by left|].
      right. by right.
Qed.

(** X10.  An id is never given out again: once the counter is past the id
    [n] (an integer a Number holds exactly) and no stored record has id [n],
    for instance after its deletion, this stays so through every sequence of
    requests whose bodies carry no [id], and a read of [n] is answered 404
    at the end. *)
Theorem retired_id_stays_retired (n : Z) (rs : list request) (s : store) :
  retired n s ->
  Forall id_free rs ->
  0 <= n ->
  exact n ->
  retired n (run rs s) /\
  get_city (decimal n) (run rs s) = (not_found, run rs s).
Proof.
  intros Hret Hrs Hn He.
  assert (retired n (run rs s)) as H.
  { revert s Hret. induction Hrs as [|r rs Hr _ IH]; intros s Hret; [done|].
    rewrite run_cons. apply IH. by apply retired_handle. }
  split; [done|]. apply handlers_no_match. intros c Hc.
  apply has_id_not_matches. intros Hm.
  apply (proj2 H c Hc). apply (matches_id_is (decimal n)); [|done].
  by apply parseInt_integer, parse_integer_decimal.
Qed.

Lemma retired_id_stays_retired_witness :
  let s := snd (delete_city (units "3")
                  (run [CreateCity (BObj ∅); CreateCity (BObj ∅)] initial)) in
  let rs := [CreateCity (BObj {[ "name" := VStr "A" ]});
             UpdateCity (units "4") (BObj {[ "name" := VStr "B" ]});
             CreateCity (BObj ∅)] in
  (retired 3 s /\ Forall id_free rs /\ 0 <= 3 /\ exact 3) /\
  retired 3 (run rs s) /\
  get_city (decimal 3) (run rs s) = (not_found, run rs s).
Proof.
  intros s rs.
  assert (retired 3 s) as H1.
  { split; [vm_compute; reflexivity|].
    intros c Hc (q & Hq & Hn). apply list_elem_of_In in Hc.
    vm_compute in Hc. destruct Hc as [<-|[]].
    vm_compute in Hq. injection Hq as <-. vm_compute in Hn. discriminate. }
  assert (Forall id_free rs) as H2 by (repeat constructor).
  assert (0 <= 3) as H3 by lia.
  assert (exact 3) as H4 by reflexivity.
  split; [done|]. exact (retired_id_stays_retired 3 rs s H1 H2 H3 H4).
Defined.

(** X11.  Ids the service never gave out are never found: while no request
    body carries an [id], a segment that reads as an integer below 3 (the
    counter starts at 3) or not below the current counter is answered 404 by
    the read, the update and the deletion. *)
Theorem unassigned_ids_not_found
    (rs : list request) (seg : list code_unit) (n : Z) :
  Forall id_free rs ->
  parseInt seg = Fin (inject_Z n) ->
  n < 3 \/ nextId (run rs initial) <= n ->
  let s := run rs initial in
  get_city seg s = (not_found, s) /\
  (forall b, put_city seg b s = (not_found, s)) /\
  delete_city seg s = (not_found, s).
Proof.
  intros Hrs Hseg Hn s.
  pose proof (server_ids_run rs initial Hrs server_ids_initial) as Hs.
  fold s in Hs. apply handlers_no_match. intros c Hc.
  apply has_id_not_matches. intros Hm.
  destruct (ids_increasing_elem _ _ _ _ Hs Hc) as (i & Hi & Hb).
  apply (matches_num seg c i n Hi Hseg) in Hm. unfold s in Hb. lia.
Qed.

Lemma unassigned_ids_not_found_witness :
  let rs := [CreateCity (BObj {[ "name" := VStr "A" ]});
             CreateCity (BObj {[ "name" := VStr "B" ]})] in
  let seg := units "1" in
  (Forall id_free rs /\ parseInt seg = Fin (inject_Z 1) /\
   (1 < 3 \/ nextId (run rs initial) <= 1)) /\
  let s := run rs initial in
  get_city seg s = (not_found, s) /\
  (forall b, put_city seg b s = (not_found, s)) /\
  delete_city seg s = (not_found, s).
Proof.
  intros rs seg.
  assert (Forall id_free rs) as H1 by (repeat constructor).
  assert (parseInt seg = Fin (inject_Z 1)) as H2 by reflexivity.
  assert (1 < 3 \/ nextId (run rs initial) <= 1) as H3 by (left; lia).
  split; [done|]. exact (unassigned_ids_not_found rs seg 1 H1 H2 H3).
Defined.

Lemma spread_id_lookup v src :
  spread {[ "id" := v ]} src !! "id" = Some (default v (src !! "id")).
Proof.
  destruct (src !! "id") as [w|] eqn:E; simpl.
  - by apply spread_lookup_src.
  - rewrite spread_lookup_target by done. apply lookup_singleton_eq.
Qed.

(** X12.  A creation is never refused and never touches the stored records:
    whatever the body, the answer is 201, exactly one record is appended,
    the counter advances by one, the fields of the record other than [id]
    are those of the body (none is required, none is checked), and its [id]
    is the one in the body when there is one, the counter value otherwise. *)
Theorem post_city_stores_body (b : reqbody) (s : store) :
  exists c,
    post_city b s =
      (Response 201 (Some (VObj c)), Store (cities s ++ [c]) (nextId s + 1)) /\
    (forall k, k <> "id" -> c !! k = own_properties b !! k) /\
    c !! "id" = Some (default (num (nextId s)) (own_properties b !! "id")).
Proof.
  exists (new_city (nextId s) b). split; [done|]. split.
  - intros k Hk. by apply spread_id_other.
  - apply spread_id_lookup.
Qed.



Lemma find_skip {A} (p : A -> bool) (l1 l2 : list A) (x : A) :
  p x = false -> List.find p (l1 ++ x :: l2) = List.find p (l1 ++ l2).
Proof.
  intros Hx. induction l1 as [|y l1 IH]; simpl; [by rewrite Hx|].
  by rewrite IH.
Qed.

Lemma find_app_found {A} (p : A -> bool) (l1 l2 : list A) (x : A) :
  x ∈ l1 -> p x = true -> List.find p (l1 ++ l2) = List.find p l1.
Proof.
  intros Hin Hx. induction l1 as [|y l1 IH]; simpl.
  - by apply elem_of_nil in Hin.
  - destruct (p y) eqn:Hy; [done|]. apply IH.
    apply elem_of_cons in Hin as [->|Hin]; [congruence|done].
Qed.

(** X14.  An update or a deletion addressed to one id does not change what a
    read of another id returns: when the two segments read as different
    Numbers (numerals that round to the same double read as the same Number)
    and the body of the update has no [id], the read is answered the same
    before and after. *)
Theorem other_ids_unaffected
    (seg seg' : list code_unit) (b : reqbody) (s : store) :
  number_eqb (parseInt seg) (parseInt seg') = false ->
  own_properties b !! "id" = None ->
  fst (get_city seg' (snd (put_city seg b s))) = fst (get_city seg' s) /\
  fst (get_city seg' (snd (delete_city seg s))) = fst (get_city seg' s).
Proof.
  intros Hne Hb.
  destruct (handlers_cases seg s) as [Hno|(c0 & Hin & Hc0)].
  { destruct (handlers_no_match seg s Hno) as (_ & -> & ->). done. }
  destruct (handlers_match seg s c0 Hin Hc0)
    as (l1 & c & l2 & Hl & Hc & _ & _ & -> & ->).
  assert (has_id seg' c = false) as Hc'.
  { apply (matches_other seg); [by apply has_id_matches|done]. }
  assert (has_id seg' (updated_city c b) = false) as Hu.
  { rewrite <- Hc'. apply has_id_same_id. by apply updated_city_keeps_id. }
  unfold get_city. simpl. rewrite Hl.
  rewrite !(find_skip (has_id seg')) by done.
  by destruct (List.find (has_id seg') (l1 ++ l2)).
Qed.

Lemma other_ids_unaffected_witness :
  let s := Store [ {[ "id" := num 3; "name" := VStr "A" ]};
                   {[ "id" := num 4; "name" := VStr "B" ]} ] 5 in
  let seg := units "3" in
  let seg' := units "4" in
  let b := BObj {[ "name" := VStr "C" ]} in
  (number_eqb (parseInt seg) (parseInt seg') = false /\
   own_properties b !! "id" = None) /\
  fst (get_city seg' (snd (put_city seg b s))) = fst (get_city seg' s) /\
  fst (get_city seg' (snd (delete_city seg s))) = fst (get_city seg' s).
Proof.
  intros s seg seg' b.
  assert (number_eqb (parseInt seg) (parseInt seg') = false) as H1
    by reflexivity.
  assert (own_properties b !! "id" = None) as H2 by reflexivity.
  split; [done|]. exact (other_ids_unaffected seg seg' b s H1 H2).
Defined.

(** X15.  A creation never changes what a read of an existing record
    returns, whatever its body (even one that carries the same [id]): the
    new record is appended after the stored ones and a read returns the
    first record the segment addresses. *)
Theorem post_city_keeps_reads
    (seg : list code_unit) (b : reqbody) (s : store) (c0 : gmap string value) :
  c0 ∈ cities s -> matches seg c0 ->
  fst (get_city seg (snd (post_city b s))) = fst (get_city seg s).
Proof.
  intros Hin Hm%has_id_matches. unfold get_city. simpl.
  rewrite (find_app_found _ _ _ c0 Hin Hm).
  by destruct (List.find (has_id seg) (cities s)).
Qed.

Lemma post_city_keeps_reads_witness :
  let c0 := {[ "id" := num 3; "name" := VStr "A" ]} in
  let s := Store [c0] 4 in
  let seg := units "3" in
  let b := BObj {[ "id" := num 3; "name" := VStr "intruder" ]} in
  (c0 ∈ cities s /\ matches seg c0) /\
  fst (get_city seg (snd (post_city b s))) = fst (get_city seg s).
Proof.
  intros c0 s seg b.
  assert (c0 ∈ cities s) as H1.
  { apply list_elem_of_In. simpl. auto. }
  assert (matches seg c0) as H2.
  { apply has_id_matches. vm_compute. reflexivity. }
  split; [done|]. exact (post_city_keeps_reads seg b s c0 H1 H2).
Defined.

(** ** Further lemmas on parseInt *)

Lemma trim_start_white ws s :
  Forall (fun c => is_white_space c = true) ws ->
  trim_start (ws ++ s) = trim_start s.
Proof. intros H. induction H as [|c ws Hc _ IH]; simpl; [done|]. by rewrite Hc. Qed.

Lemma parse_integer_leading_white ws s :
  Forall (fun c => is_white_space c = true) ws ->
  parse_integer (ws ++ s) = parse_integer s.
Proof. intros H. unfold parse_integer. by rewrite (trim_start_white ws s H). Qed.

Lemma decimal_spec n :
  0 <= n ->
  decimal n <> [] /\
  Forall (fun c => is_decimal_digit c = true) (decimal n) /\
  decimal_value (decimal n) = n.
Proof.
  intros Hn. unfold decimal.
  assert (0 <= n < 2 ^ Z.of_nat (S (Z.to_nat (Z.log2 n)))) as Hb.
  { split; [done|]. rewrite Nat2Z.inj_succ, Z2Nat.id by apply Z.log2_nonneg.
    destruct (Z.eq_dec n 0) as [->|]; [done|]. apply Z.log2_spec. lia. }
  destruct (decimal_go_spec _ n [] Hb) as (p & -> & Hne & Hdig & <-).
  by rewrite app_nil_r.
Qed.

Lemma decimal_value_leading_zeros k ds :
  decimal_value (repeat 48%N k ++ ds) = decimal_value ds.
Proof.
  unfold decimal_value, math_int. induction k as [|k IH]; [done|].
  simpl. exact IH.
Qed.

(** The id-addressed handlers see the segment only through [parseInt]. *)
Lemma handlers_same_parse seg seg' s :
  parseInt seg = parseInt seg' ->
  get_city seg s = get_city seg' s /\
  (forall b, put_city seg b s = put_city seg' b s) /\
  delete_city seg s = delete_city seg' s.
Proof.
  intros H. unfold get_city, put_city, delete_city, has_id. by rewrite H.
Qed.

Lemma radix_digit_hex c :
  is_hex_digit c = true ->
  radix_digit 16 c = Some (default 0 (digit_value c)).
Proof.
  unfold is_hex_digit, radix_digit. destruct (digit_value c); [|done].
  simpl. by intros ->.
Qed.

Lemma radix_digit_not_hex c :
  is_hex_digit c = false -> radix_digit 16 c = None.
Proof.
  unfold is_hex_digit, radix_digit. destruct (digit_value c); [|done].
  by intros ->.
Qed.

Lemma take_digits_no_hex tail :
  (forall c, head tail = Some c -> is_hex_digit c = false) ->
  take_digits 16 tail = [].
Proof.
  destruct tail as [|c tail]; [done|]. intros H. simpl.
  by rewrite (radix_digit_not_hex c (H c eq_refl)).
Qed.

Lemma take_digits_hex hs tail :
  Forall (fun c => is_hex_digit c = true) hs ->
  take_digits 16 tail = [] ->
  take_digits 16 (hs ++ tail) = map (fun c => default 0 (digit_value c)) hs.
Proof.
  intros Hhs Htail. induction Hhs as [|c hs Hc _ IH]; simpl; [done|].
  by rewrite (radix_digit_hex c Hc), IH.
Qed.

(** After [0x] or [0X] the digits are read in base 16. *)
Lemma parse_integer_0x x s :
  x = 120%N \/ x = 88%N ->
  parse_integer (48%N :: x :: s) =
  match take_digits 16 s with
  | [] => None
  | ds => Some (math_int 16 ds)
  end.
Proof.
  intros [-> | ->]; unfold parse_integer; cbn -[take_digits math_int Z.mul];
    destruct (take_digits 16 s); try done; f_equal; lia.
Qed.

(** X16.  Several spellings address the same record: leading white space, a
    [+] sign and leading zeros in front of the decimal numeral of [n] are
    all skipped by [parseInt], so the read, the update and the deletion
    behave exactly as with the plain numeral; with a [-] sign the segment
    reads as [-n].  What is read is the Number of the integer: the nearest
    double when the numeral is beyond 2^53. *)
Theorem segment_spellings
    (ws : list code_unit) (sg : sign) (k : nat) (n : Z) :
  Forall (fun c => is_white_space c = true) ws ->
  0 <= n ->
  let seg := ws ++ sign_units sg ++ repeat 48%N k ++ decimal n in
  parseInt seg = of_Z (match sg with MinusSign => - n | _ => n end) /\
  (sg <> MinusSign ->
   forall s,
     get_city seg s = get_city (decimal n) s /\
     (forall b, put_city seg b s = put_city (decimal n) b s) /\
     delete_city seg s = delete_city (decimal n) s).
Proof.
  intros Hws Hn seg.
  destruct (decimal_spec n Hn) as (Hne & Hdig & Hval).
  assert (parse_integer seg = Some (signed_value sg (repeat 48%N k ++ decimal n)))
    as Hseg.
  { unfold seg. rewrite (parse_integer_leading_white ws _ Hws).
    rewrite <- (app_nil_r (repeat 48%N k ++ decimal n)) at 1.
    apply parse_integer_signed_decimal_prefix.
    - destruct k; [|done]. simpl. done.
    - apply Forall_app. split; [|done]. clear. induction k; by constructor.
    - done.
    - intros [_ (c & rest' & ? & _)]. done. }
  assert (signed_value sg (repeat 48%N k ++ decimal n) =
          match sg with MinusSign => - n | _ => n end) as Hv.
  { unfold signed_value. rewrite decimal_value_leading_zeros, Hval. done. }
  rewrite Hv in Hseg. apply parseInt_integer in Hseg.
  split; [done|]. intros Hsg s.
  apply handlers_same_parse.
  rewrite Hseg, (parseInt_integer _ n) by (by apply parse_integer_decimal).
  by destruct sg.
Qed.

Lemma segment_spellings_witness :
  let ws := [32%N; 9%N] in
  let seg := ws ++ sign_units PlusSign ++ repeat 48%N 2 ++ decimal 7 in
  (Forall (fun c => is_white_space c = true) ws /\ 0 <= 7) /\
  seg = 32%N :: 9%N :: units "+007" /\
  parseInt seg = of_Z 7 /\
  (PlusSign <> MinusSign ->
   forall s,
     get_city seg s = get_city (decimal 7) s /\
     (forall b, put_city seg b s = put_city (decimal 7) b s) /\
     delete_city seg s = delete_city (decimal 7) s).
Proof.
  intros ws seg.
  assert (Forall (fun c => is_white_space c = true) ws) as H1
    by (repeat constructor).
  assert (0 <= 7) as H2 by lia.
  split; [done|]. split; [reflexivity|].
  exact (segment_spellings ws PlusSign 2 7 H1 H2).
Defined.

(** X17.  A segment written in hexadecimal addresses the record with that
    value: after an optional sign, [0x] or [0X] followed by hexadecimal
    digits reads as the Number of the integer the digits write in base 16
    (so [0x10] is id 16, not id 0, and a value beyond 2^53 is the nearest
    double), up to the first code unit that is not such a digit. *)
Theorem hex_segment_value
    (sg : sign) (x : code_unit) (hs tail : list code_unit) :
  x = 120%N \/ x = 88%N ->
  hs <> [] ->
  Forall (fun c => is_hex_digit c = true) hs ->
  (forall c, head tail = Some c -> is_hex_digit c = false) ->
  parseInt (sign_units sg ++ 48%N :: x :: hs ++ tail) =
  of_Z (match sg with MinusSign => - hex_value hs | _ => hex_value hs end).
Proof.
  intros Hx Hne Hhs Htail. apply parseInt_integer.
  rewrite (parse_integer_signed sg 48%N) by done.
  rewrite (parse_integer_0x x _ Hx).
  rewrite (take_digits_hex hs tail Hhs (take_digits_no_hex tail Htail)).
  destruct hs as [|h hs]; [done|]. simpl. by destruct sg.
Qed.

Lemma hex_segment_value_witness :
  let hs := units "1F" in
  let tail := units "g" in
  (120%N = 120%N \/ 120%N = 88%N) /\
  hs <> [] /\
  Forall (fun c => is_hex_digit c = true) hs /\
  (forall c, head tail = Some c -> is_hex_digit c = false) /\
  hex_value hs = 31 /\
  parseInt (sign_units NoSign ++ 48%N :: 120%N :: hs ++ tail) =
  of_Z (hex_value hs).
Proof.
  intros hs tail.
  assert (120%N = 120%N \/ 120%N = 88%N) as H1 by (by left).
  assert (hs <> []) as H2 by done.
  assert (Forall (fun c => is_hex_digit c = true) hs) as H3
    by (repeat constructor).
  assert (forall c, head tail = Some c -> is_hex_digit c = false) as H4.
  { intros c [= <-]. reflexivity. }
  split; [done|]. split; [done|]. split; [done|]. split; [done|].
  split; [reflexivity|].
  exact (hex_segment_value NoSign 120%N hs tail H1 H2 H3 H4).
Defined.

(** X18.  A segment that begins with [0x] or [0X] not followed by a
    hexadecimal digit has no number to read, although it begins with the
    digit 0: the read, the update and the deletion are answered 404 and
    change nothing, even when a record with id 0 is stored. *)
Theorem hex_prefix_alone_not_found
    (sg : sign) (x : code_unit) (tail : list code_unit) (s : store) :
  x = 120%N \/ x = 88%N ->
  (forall c, head tail = Some c -> is_hex_digit c = false) ->
  let seg := sign_units sg ++ 48%N :: x :: tail in
  parseInt seg = NaN /\
  get_city seg s = (not_found, s) /\
  (forall b, put_city seg b s = (not_found, s)) /\
  delete_city seg s = (not_found, s).
Proof.
  intros Hx Htail seg.
  assert (parseInt seg = NaN) as Hseg.
  { apply parseInt_NaN. unfold seg.
    rewrite (parse_integer_signed sg 48%N) by done.
    by rewrite (parse_integer_0x x _ Hx), (take_digits_no_hex tail Htail). }
  split; [done|]. apply handlers_no_match. intros c _.
  unfold has_id. rewrite Hseg. apply strict_equals_NaN.
Qed.

Lemma hex_prefix_alone_not_found_witness :
  let s := Store [ {[ "id" := num 0 ]} ] 3 in
  let tail := units "yz" in
  let seg := sign_units NoSign ++ 48%N :: 120%N :: tail in
  ((120%N = 120%N \/ 120%N = 88%N) /\
   forall c, head tail = Some c -> is_hex_digit c = false) /\
  parseInt seg = NaN /\
  get_city seg s = (not_found, s) /\
  (forall b, put_city seg b s = (not_found, s)) /\
  delete_city seg s = (not_found, s).
Proof.
  intros s tail seg.
  assert (120%N = 120%N \/ 120%N = 88%N) as H1 by (by left).
  assert (forall c, head tail = Some c -> is_hex_digit c = false) as H2.
  { intros c [= <-]. reflexivity. }
  split; [done|]. exact (hex_prefix_alone_not_found NoSign 120%N tail s H1 H2).
Defined.

(** X19.  A segment whose first code unit is neither white space, nor a
    sign, nor a decimal digit (a word such as [abc] or [x5]) has no number
    to read: the read, the update and the deletion are answered 404 and
    change nothing. *)
Theorem word_segment_not_found
    (c : code_unit) (rest : list code_unit) (s : store) :
  is_white_space c = false ->
  c <> 43%N -> c <> 45%N ->
  is_decimal_digit c = false ->
  parseInt (c :: rest) = NaN /\
  get_city (c :: rest) s = (not_found, s) /\
  (forall b, put_city (c :: rest) b s = (not_found, s)) /\
  delete_city (c :: rest) s = (not_found, s).
Proof.
  intros Hsp H43 H45 Hd.
  pose proof (parse_integer_no_numeral c rest Hsp H43 H45 Hd) as Hseg.
  apply parseInt_NaN in Hseg.
  split; [done|]. apply handlers_no_match. intros y _.
  unfold has_id. rewrite Hseg. apply strict_equals_NaN.
Qed.

Lemma word_segment_not_found_witness :
  let s := Store [ {[ "id" := num 5 ]} ] 6 in
  let c := 120%N in
  let rest := units "5" in
  (is_white_space c = false /\ c <> 43%N /\ c <> 45%N /\
   is_decimal_digit c = false) /\
  parseInt (c :: rest) = NaN /\
  get_city (c :: rest) s = (not_found, s) /\
  (forall b, put_city (c :: rest) b s = (not_found, s)) /\
  delete_city (c :: rest) s = (not_found, s).
Proof.
  intros s c rest.
  assert (is_white_space c = false) as H1 by reflexivity.
  assert (c <> 43%N) as H2 by done.
  assert (c <> 45%N) as H3 by done.
  assert (is_decimal_digit c = false) as H4 by reflexivity.
  split; [done|]. exact (word_segment_not_found c rest s H1 H2 H3 H4).
Defined.

(** ** Array bodies *)

Lemma pretty_N_go_ne_id x s : s <> "id" -> pretty_N_go x s <> "id".
Proof.
  revert s. induction (N.lt_wf_0 x) as [x _ IH]; intros s Hs.
  assert (x = 0 \/ 0 < x)%N as [->|Hx] by lia.
  - by rewrite pretty_N_go_0.
  - rewrite pretty_N_go_step by done. apply IH.
    { by apply N.div_lt. }
    unfold pretty_N_char. by repeat case_match.
Qed.

(** The decimal numeral of an index is never the property name [id]. *)
Lemma pretty_nat_ne_id (i : nat) : pretty i <> "id".
Proof.
  unfold pretty, pretty_nat, pretty, pretty_N.
  case_decide; [done|]. by apply pretty_N_go_ne_id.
Qed.

Lemma indexed_lookup_other (k : string) : forall (f : nat -> string) (l : list value),
  (forall i, f i <> k) ->
  (list_to_map (imap (fun i v => (f i, v)) l) : gmap string value) !! k = None.
Proof.
  intros f l. revert f. induction l as [|x l IH]; intros f Hf; simpl.
  - apply lookup_empty.
  - rewrite lookup_insert_ne by apply Hf.
    apply (IH (f ∘ S)). intros i. apply Hf.
Qed.

Lemma indexed_lookup : forall (f : nat -> string) (l : list value) (j : nat),
  Inj (=) (=) f ->
  (list_to_map (imap (fun i v => (f i, v)) l) : gmap string value) !! f j = l !! j.
Proof.
  intros f l. revert f. induction l as [|x l IH]; intros f j Hf; simpl.
  - by rewrite lookup_empty.
  - destruct j as [|j]; simpl.
    + apply lookup_insert_eq.
    + rewrite lookup_insert_ne by (intros H; by apply Hf in H).
      apply (IH (f ∘ S) j). intros a a' H. apply Hf in H. by injection H.
Qed.

(** X20.  A creation whose body is an array stores the elements under their
    decimal indices and always gets the counter value as its id: an array
    has no own property [id] that could overwrite it. *)
Theorem array_body_creation (l : list value) (s : store) :
  exists c,
    post_city (BArr l) s =
      (Response 201 (Some (VObj c)), Store (cities s ++ [c]) (nextId s + 1)) /\
    c !! "id" = Some (num (nextId s)) /\
    (forall i : nat, c !! pretty i = l !! i) /\
    id_free (CreateCity (BArr l)).
Proof.
  assert (own_properties (BArr l) !! "id" = None) as Hid.
  { simpl. apply indexed_lookup_other. apply pretty_nat_ne_id. }
  exists (new_city (nextId s) (BArr l)). split; [done|].
  rewrite (new_city_id_absent _ _ Hid). split; [apply lookup_insert_eq|].
  split; [|done]. intros i.
  rewrite lookup_insert_ne by (apply not_eq_sym, pretty_nat_ne_id).
  simpl. apply (indexed_lookup (fun i : nat => pretty i)). apply _.
Qed.

(** ** Order of the collection *)


